(** * A to-do list kept in browser storage: the state core of [src/index.js]

    The React component [App] of [src/index.js] owns one piece of state,
    [todos], loads it from [localStorage] when it is mounted, rewrites the
    stored copy whenever [todos] changes, and changes it through three event
    handlers ([handleAddTodo], [handleToggleCompleted], [handleDeleteTodo]).

    The development follows the code bottom-up:
    - JavaScript strings as sequences of UTF-16 code units, and [trim];
    - the values [JSON.parse] can return, with the property access, strict
      equality, truthiness and spread operations the handlers apply to them;
    - [JSON.stringify] and [JSON.parse] (ECMA-262, section 25.5);
    - [localStorage] with a quota;
    - the component: initial state, save effect, handlers, render, events;
    - items, the typed view of the objects the component creates;
    - the properties: quoting and printing are inverted by the parser, the
      parser decides every text, and the behaviour of the store operations
      (C1 to C10). *)

From Stdlib Require Import ZArith NArith Ascii String List Bool Lia ZifyBool.
From Stdlib Require Import DecimalFacts DecimalPos DecimalN.
From stdpp Require Import base option list gmap.

Local Open Scope N_scope.
Set Warnings "-register-all".

(** ** JavaScript strings *)

(** A JavaScript string is a sequence of 16-bit code units. *)
Abbreviation jsstring := (list N).

(** The code units of an ASCII literal. *)
Definition lit (s : string) : jsstring :=
  List.map N_of_ascii (list_ascii_of_string s).

(** ECMA-262 12.2 WhiteSpace and 12.3 LineTerminator: the code units removed
    by [String.prototype.trim]. *)
Definition is_white_space (c : N) : bool :=
  (c =? 9) || (c =? 11) || (c =? 12) || (c =? 32) || (c =? 160)
  || (c =? 5760) || ((8192 <=? c) && (c <=? 8202))
  || (c =? 8239) || (c =? 8287) || (c =? 12288) || (c =? 65279).

Definition is_line_terminator (c : N) : bool :=
  (c =? 10) || (c =? 13) || (c =? 8232) || (c =? 8233).

Definition is_trimmed_unit (c : N) : bool :=
  is_white_space c || is_line_terminator c.

Fixpoint trim_start (s : jsstring) : jsstring :=
  match s with
  | c :: r => if is_trimmed_unit c then trim_start r else s
  | [] => []
  end.

Definition trim_end (s : jsstring) : jsstring :=
  List.rev (trim_start (List.rev s)).

(** [s.trim()] *)
Definition trim (s : jsstring) : jsstring := trim_end (trim_start s).

(** ** Completions *)

(** The exceptions the modelled code can raise. *)
Inductive exn : Set :=
| SyntaxError          (* JSON.parse on text outside the JSON grammar *)
| TypeError            (* property access on null, call of a non-function,
                          spread of a non-iterable *)
| QuotaExceededError.  (* localStorage.setItem when the value cannot be set *)

(** A computation either returns normally or throws. *)
Inductive result (A : Type) : Type :=
| Ok (a : A)
| Throw (e : exn).
Arguments Ok {A} a.
Arguments Throw {A} e.

Definition bind {A B} (r : result A) (k : A -> result B) : result B :=
  match r with
  | Ok a => k a
  | Throw e => Throw e
  end.

Notation "'let*' x ':=' r 'in' k" := (bind r (fun x => k))
  (at level 10, x pattern, r at level 100, k at level 200).

(** [xs.map(f)] where [f] may throw: elements are visited left to right and
    the first exception ends the traversal. *)
Fixpoint mapM {A B} (f : A -> result B) (l : list A) : result (list B) :=
  match l with
  | [] => Ok []
  | x :: r => let* y := f x in let* ys := mapM f r in Ok (y :: ys)
  end.

(** ** Numbers *)

(** JavaScript numbers are IEEE-754 doubles. The store only creates integral
    numbers ([Date.now()]), and only compares, prints and reads numbers back;
    it does no arithmetic. Numbers are therefore modelled by their exact
    decimal value, in a canonical form: an integer, or [m * 10^-e] with
    [e >= 1] and [m] not a multiple of ten. Rounding to 53 bits, infinities
    and NaN are outside this model. *)
Inductive number : Set :=
| NumInt (z : Z)
| NumDec (m : Z) (e : positive).

Definition number_eqb (x y : number) : bool :=
  match x, y with
  | NumInt a, NumInt b => Z.eqb a b
  | NumDec m e, NumDec m' e' => Z.eqb m m' && Pos.eqb e e'
  | _, _ => false
  end.

Definition digit_unit (d : digits) : N :=
  match d with
  | d0 => 48 | d1 => 49 | d2 => 50 | d3 => 51 | d4 => 52
  | d5 => 53 | d6 => 54 | d7 => 55 | d8 => 56 | d9 => 57
  end.

(** The code units of a digit sequence, most significant first. *)
Definition units_of_uint (d : Decimal.uint) : jsstring :=
  List.map digit_unit (to_list d).

(** Decimal digits of a natural number, without leading zeros. *)
Definition decimal (n : N) : jsstring := units_of_uint (N.to_uint n).

(** The exponent part of Number::toString, for the exponent [n - 1]. *)
Definition exponent_part (e : Z) : jsstring :=
  lit "e" ++ (if (e <? 0)%Z then lit "-" else lit "+") ++ decimal (Z.abs_N e).

(** Number::toString (ECMA-262 6.1.6.1.20) for a positive value
    [s * 10^(n - k)], where [ds] are the [k] digits of [s] and [s] is not a
    multiple of ten. *)
Definition format_digits (ds : jsstring) (n : Z) : jsstring :=
  let k := Z.of_nat (length ds) in
  if ((k <=? n) && (n <=? 21))%Z then
    ds ++ List.repeat 48 (Z.to_nat (n - k))
  else if ((0 <? n) && (n <=? 21))%Z then
    take (Z.to_nat n) ds ++ lit "." ++ drop (Z.to_nat n) ds
  else if ((-6 <? n) && (n <=? 0))%Z then
    lit "0." ++ List.repeat 48 (Z.to_nat (- n)) ++ ds
  else
    match ds with
    | [d] => [d] ++ exponent_part (n - 1)
    | d :: r => [d] ++ lit "." ++ r ++ exponent_part (n - 1)
    | [] => []
    end.

Definition Number_toString (x : number) : jsstring :=
  match x with
  | NumInt 0%Z => lit "0"
  | NumInt z =>
      let ds := N.to_uint (Z.abs_N z) in
      (if (z <? 0)%Z then lit "-" else [])
      ++ format_digits (units_of_uint (fst (Decimal.nztail ds)))
                       (Z.of_nat (Decimal.nb_digits ds))
  | NumDec m e =>
      let ds := units_of_uint (N.to_uint (Z.abs_N m)) in
      (if (m <? 0)%Z then lit "-" else [])
      ++ format_digits ds (Z.of_nat (length ds) - Z.pos e)
  end.

(** ** Values *)

(** The values [JSON.parse] returns, which are also the values the handlers
    build. An object is the list of its own properties in the order
    [JSON.stringify], spread and [Object.keys] see them. *)
Inductive value : Type :=
| VNull
| VBool (b : bool)
| VNum (n : number)
| VStr (s : jsstring)
| VArr (elems : list value)
| VObj (props : list (jsstring * value)).

(** The primitives an event handler can receive as [id]; [PUndefined] is what
    [todo.id] evaluates to on an item without such a property. *)
Inductive prim : Type :=
| PUndefined
| PNull
| PBool (b : bool)
| PNum (n : number)
| PStr (s : jsstring).

Definition jsstring_eqb (s t : jsstring) : bool :=
  bool_decide (s = t).

(** Own property lookup in property order. *)
Fixpoint lookup_property (k : jsstring) (ps : list (jsstring * value))
  : option value :=
  match ps with
  | [] => None
  | (k', v) :: r => if jsstring_eqb k k' then Some v else lookup_property k r
  end.

(** [v.k] for a key [k] that is neither an array index, nor [length], nor a
    name found on the built-in prototypes (the handlers read [id] and
    [completed]). [None] stands for [undefined]; reading a property of [null]
    throws. *)
Definition get (v : value) (k : jsstring) : result (option value) :=
  match v with
  | VNull => Throw TypeError
  | VObj ps => Ok (lookup_property k ps)
  | _ => Ok None
  end.

(** [x === p] for a primitive [p]. An object or an array is never strictly
    equal to a primitive. *)
Definition strict_equals (x : option value) (p : prim) : bool :=
  match x, p with
  | None, PUndefined => true
  | Some VNull, PNull => true
  | Some (VBool a), PBool b => Bool.eqb a b
  | Some (VNum a), PNum b => number_eqb a b
  | Some (VStr a), PStr b => jsstring_eqb a b
  | _, _ => false
  end.

(** ToBoolean (ECMA-262 7.1.2). *)
Definition to_boolean (x : option value) : bool :=
  match x with
  | None => false
  | Some VNull => false
  | Some (VBool b) => b
  | Some (VNum (NumInt z)) => negb (Z.eqb z 0)
  | Some (VNum (NumDec _ _)) => true
  | Some (VStr s) => negb (jsstring_eqb s [])
  | Some (VArr _) => true
  | Some (VObj _) => true
  end.

(** *** Property order *)

Fixpoint all_digits (s : jsstring) : bool :=
  match s with
  | [] => true
  | c :: r => (48 <=? c) && (c <=? 57) && all_digits r
  end.

Fixpoint digits_value (acc : N) (s : jsstring) : N :=
  match s with
  | [] => acc
  | c :: r => digits_value (10 * acc + (c - 48)) r
  end.

(** An array index is a canonical numeric string below [2^32 - 1]
    (ECMA-262 6.1.7). *)
Definition array_index (k : jsstring) : option N :=
  match k with
  | [] => None
  | c :: r =>
      if all_digits k && implb (c =? 48) (jsstring_eqb r [])
      then let n := digits_value 0 k in
           if n <? 4294967295 then Some n else None
      else None
  end.

Fixpoint replace_property (k : jsstring) (v : value)
    (ps : list (jsstring * value)) : list (jsstring * value) :=
  match ps with
  | [] => []
  | (k', v') :: r =>
      if jsstring_eqb k k' then (k', v) :: r
      else (k', v') :: replace_property k v r
  end.

Fixpoint insert_index (i : N) (k : jsstring) (v : value)
    (ps : list (jsstring * value)) : list (jsstring * value) :=
  match ps with
  | [] => [(k, v)]
  | (k', v') :: r =>
      match array_index k' with
      | Some j => if i <? j then (k, v) :: ps
                  else (k', v') :: insert_index i k v r
      | None => (k, v) :: ps
      end
  end.

(** CreateDataProperty on an ordinary object, with the key order of
    OrdinaryOwnPropertyKeys (ECMA-262 10.1.11.1): a key that exists keeps its
    place; a new array index goes among the array indices, in ascending
    order; any other new key goes last. *)
Definition define_property (k : jsstring) (v : value)
    (ps : list (jsstring * value)) : list (jsstring * value) :=
  match lookup_property k ps with
  | Some _ => replace_property k v ps
  | None =>
      match array_index k with
      | Some i => insert_index i k v ps
      | None => ps ++ [(k, v)]
      end
  end.

Fixpoint indexed_from {A} (i : N) (l : list A) : list (jsstring * A) :=
  match l with
  | [] => []
  | x :: r => (decimal i, x) :: indexed_from (N.succ i) r
  end.

(** The own enumerable properties copied by the spread [{...v}]
    (CopyDataProperties, ECMA-262 7.3.26): the elements of an array and the
    code units of a string under their indices, nothing for the other
    primitives. *)
Definition own_properties (v : value) : list (jsstring * value) :=
  match v with
  | VObj ps => ps
  | VArr l => indexed_from 0 l
  | VStr s => indexed_from 0 (List.map (fun c => VStr [c]) s)
  | _ => []
  end.

Definition is_high_surrogate (c : N) : bool := (55296 <=? c) && (c <=? 56319).
Definition is_low_surrogate (c : N) : bool := (56320 <=? c) && (c <=? 57343).

(** The strings produced by a string iterator: one per code point. *)
Fixpoint code_points (s : jsstring) : list jsstring :=
  match s with
  | [] => []
  | c :: r =>
      match r with
      | c' :: r' =>
          if is_high_surrogate c && is_low_surrogate c'
          then [c; c'] :: code_points r'
          else [c] :: code_points r
      | [] => [[c]]
      end
  end.

(** The elements the array spread [[...v]] iterates; a value that is not
    iterable throws. *)
Definition iterate (v : value) : result (list value) :=
  match v with
  | VArr l => Ok l
  | VStr s => Ok (List.map VStr (code_points s))
  | _ => Throw TypeError
  end.

(** ** JSON *)

Module JSON.

(** *** JSON.stringify *)

Definition hex_digit (n : N) : N := if n <? 10 then 48 + n else 87 + n.

(** UnicodeEscape (ECMA-262 25.5.2.4): a backslash, [u] and four lowercase
    hexadecimal digits. *)
Definition unicode_escape (c : N) : jsstring :=
  [92; 117; hex_digit (c / 4096 mod 16); hex_digit (c / 256 mod 16);
   hex_digit (c / 16 mod 16); hex_digit (c mod 16)].

(** One code point of QuoteJSONString that is a single code unit. *)
Definition quote_unit (c : N) : jsstring :=
  if c =? 8 then lit "\b"
  else if c =? 9 then lit "\t"
  else if c =? 10 then lit "\n"
  else if c =? 12 then lit "\f"
  else if c =? 13 then lit "\r"
  else if c =? 34 then [92; 34]
  else if c =? 92 then [92; 92]
  else if (c <? 32) || is_high_surrogate c || is_low_surrogate c
       then unicode_escape c
  else [c].

(** The body of QuoteJSONString (ECMA-262 25.5.2.3): a surrogate pair is one
    code point and is copied; a surrogate on its own is escaped. *)
Fixpoint quote_units (s : jsstring) : jsstring :=
  match s with
  | [] => []
  | c :: r =>
      match r with
      | c' :: r' =>
          if is_high_surrogate c && is_low_surrogate c'
          then c :: c' :: quote_units r'
          else quote_unit c ++ quote_units r
      | [] => quote_unit c
      end
  end.

Definition quote (s : jsstring) : jsstring := [34] ++ quote_units s ++ [34].

Fixpoint join (sep : jsstring) (parts : list jsstring) : jsstring :=
  match parts with
  | [] => []
  | [p] => p
  | p :: r => p ++ sep ++ join sep r
  end.

(** SerializeJSONProperty without replacer and without indentation: what
    [JSON.stringify(v)] returns. *)
Fixpoint stringify (v : value) : jsstring :=
  match v with
  | VNull => lit "null"
  | VBool true => lit "true"
  | VBool false => lit "false"
  | VNum n => Number_toString n
  | VStr s => quote s
  | VArr l => lit "[" ++ join (lit ",") (List.map stringify l) ++ lit "]"
  | VObj ps =>
      lit "{"
      ++ join (lit ",")
           (List.map
              (fun kv => quote (fst kv) ++ lit ":" ++ stringify (snd kv)) ps)
      ++ lit "}"
  end.

(** *** JSON.parse *)

(** JSON white space: tab, line feed, carriage return, space. *)
Definition is_ws (c : N) : bool :=
  (c =? 9) || (c =? 10) || (c =? 13) || (c =? 32).

Fixpoint skip_ws (s : jsstring) : jsstring :=
  match s with
  | c :: r => if is_ws c then skip_ws r else s
  | [] => []
  end.

Definition hex_value (c : N) : option N :=
  if (48 <=? c) && (c <=? 57) then Some (c - 48)
  else if (97 <=? c) && (c <=? 102) then Some (c - 87)
  else if (65 <=? c) && (c <=? 70) then Some (c - 55)
  else None.

Definition hex4 (a b c d : N) : option N :=
  match hex_value a, hex_value b, hex_value c, hex_value d with
  | Some x, Some y, Some z, Some w => Some (4096 * x + 256 * y + 16 * z + w)
  | _, _, _, _ => None
  end.

(** The code unit denoted by a single-character escape. *)
Definition simple_escape (c : N) : option N :=
  if c =? 34 then Some 34          (* quote *)
  else if c =? 92 then Some 92     (* backslash *)
  else if c =? 47 then Some 47     (* solidus *)
  else if c =? 98 then Some 8      (* b *)
  else if c =? 102 then Some 12    (* f *)
  else if c =? 110 then Some 10    (* n *)
  else if c =? 114 then Some 13    (* r *)
  else if c =? 116 then Some 9     (* t *)
  else None.

Definition cons_fst {A B} (a : A) (r : option (list A * B))
  : option (list A * B) :=
  match r with
  | Some (l, b) => Some (a :: l, b)
  | None => None
  end.

(** A JSONString after its opening quote: the string value and the text
    after the closing quote. *)
Fixpoint lex_string (s : jsstring) : option (jsstring * jsstring) :=
  match s with
  | [] => None
  | c :: r =>
      if c =? 34 then Some ([], r)
      else if c =? 92 then
        match r with
        | e :: r1 =>
            if e =? 117 then
              match r1 with
              | h1 :: h2 :: h3 :: h4 :: r2 =>
                  match hex4 h1 h2 h3 h4 with
                  | Some u => cons_fst u (lex_string r2)
                  | None => None
                  end
              | _ => None
              end
            else
              match simple_escape e with
              | Some u => cons_fst u (lex_string r1)
              | None => None
              end
        | [] => None
        end
      else if c <? 32 then None
      else cons_fst c (lex_string r)
  end.

Definition digit_of_unit (c : N) : option digits :=
  if c =? 48 then Some d0 else if c =? 49 then Some d1
  else if c =? 50 then Some d2 else if c =? 51 then Some d3
  else if c =? 52 then Some d4 else if c =? 53 then Some d5
  else if c =? 54 then Some d6 else if c =? 55 then Some d7
  else if c =? 56 then Some d8 else if c =? 57 then Some d9
  else None.

(** The longest run of decimal digits at the head of the text. *)
Fixpoint lex_digits (s : jsstring) : list digits * jsstring :=
  match s with
  | [] => ([], [])
  | c :: r =>
      match digit_of_unit c with
      | Some d => let '(ds, r') := lex_digits r in (d :: ds, r')
      | None => ([], s)
      end
  end.

Definition lex_fraction (s : jsstring) : option (list digits * jsstring) :=
  match s with
  | c :: r =>
      if c =? 46 then
        match lex_digits r with
        | ([], _) => None
        | (ds, r') => Some (ds, r')
        end
      else Some ([], s)
  | [] => Some ([], [])
  end.

Definition digits_N (ds : list digits) : N := N.of_uint (of_list ds).

Definition lex_exponent (s : jsstring) : option (Z * jsstring) :=
  match s with
  | c :: r =>
      if (c =? 101) || (c =? 69) then
        let '(neg, r1) :=
          match r with
          | c' :: r' => if c' =? 45 then (true, r')
                        else if c' =? 43 then (false, r') else (false, r)
          | [] => (false, r)
          end in
        match lex_digits r1 with
        | ([], _) => None
        | (ds, r2) =>
            Some (if neg then (- Z.of_N (digits_N ds))%Z
                  else Z.of_N (digits_N ds), r2)
        end
      else Some (0%Z, s)
  | [] => Some (0%Z, [])
  end.

(** [m * 10^-e] in canonical form. *)
Fixpoint norm_dec (m : Z) (e : nat) : number :=
  match e with
  | O => NumInt m
  | S e' => if (m mod 10 =? 0)%Z then norm_dec (m / 10) e'
            else NumDec m (Pos.of_succ_nat e')
  end.

Definition make_number (neg : bool) (mant : N) (exp10 : Z) : number :=
  let z := if neg then (- Z.of_N mant)%Z else Z.of_N mant in
  if (0 <=? exp10)%Z then NumInt (z * 10 ^ exp10)
  else norm_dec z (Z.to_nat (- exp10)).

(** A JSONNumber after its optional minus sign: integer part without
    leading zero, optional fraction, optional exponent. *)
Definition lex_magnitude (neg : bool) (s : jsstring)
  : option (number * jsstring) :=
  match lex_digits s with
  | ([], _) => None
  | (d0 :: _ :: _, _) => None
  | (ip, s2) =>
      match lex_fraction s2 with
      | None => None
      | Some (fp, s3) =>
          match lex_exponent s3 with
          | None => None
          | Some (ex, s4) =>
              Some (make_number neg (digits_N (ip ++ fp))
                      (ex - Z.of_nat (length fp)), s4)
          end
      end
  end.

Definition lex_number (s : jsstring) : option (number * jsstring) :=
  match s with
  | c :: r => if c =? 45 then lex_magnitude true r else lex_magnitude false s
  | [] => None
  end.

Fixpoint strip_prefix (p s : jsstring) : option jsstring :=
  match p, s with
  | [], _ => Some s
  | a :: p', b :: s' => if a =? b then strip_prefix p' s' else None
  | _ :: _, [] => None
  end.

(** The outcome of parsing a prefix of the text. The recursive descent is
    driven by a fuel counter; [parse_fuel_enough] below shows that the fuel
    [parse] supplies never runs out. *)
Inductive parsed (A : Type) : Type :=
| Parsed (a : A) (rest : jsstring)
| Reject
| OutOfFuel.
Arguments Parsed {A} a rest.
Arguments Reject {A}.
Arguments OutOfFuel {A}.

Definition parsed_map {A B} (f : A -> B) (r : parsed A) : parsed B :=
  match r with
  | Parsed a rest => Parsed (f a) rest
  | Reject => Reject
  | OutOfFuel => OutOfFuel
  end.

Definition of_option {A} (r : option (A * jsstring)) : parsed A :=
  match r with
  | Some (a, rest) => Parsed a rest
  | None => Reject
  end.

(** The object a JSONObject evaluates to: its members are defined in source
    order, a repeated key keeping the last value. *)
Definition object_of_members (ms : list (jsstring * value))
  : list (jsstring * value) :=
  fold_left (fun ps kv => define_property (fst kv) (snd kv) ps) ms [].

(** [parse_value] reads a JSONValue with leading white space;
    [parse_elements] reads the elements of a non-empty array up to and
    including the closing bracket; [parse_members] does the same for the
    members of a non-empty object. *)
Fixpoint parse_value (fuel : nat) (s : jsstring) : parsed value :=
  match fuel with
  | O => OutOfFuel
  | S fuel =>
      match skip_ws s with
      | [] => Reject
      | c :: r =>
          if c =? 34 then parsed_map VStr (of_option (lex_string r))
          else if c =? 91 then
            match skip_ws r with
            | c' :: r' =>
                if c' =? 93 then Parsed (VArr []) r'
                else parsed_map VArr (parse_elements fuel r)
            | [] => Reject
            end
          else if c =? 123 then
            match skip_ws r with
            | c' :: r' =>
                if c' =? 125 then Parsed (VObj []) r'
                else parsed_map (fun ms => VObj (object_of_members ms))
                       (parse_members fuel r)
            | [] => Reject
            end
          else if c =? 116 then
            of_option (pair (VBool true) <$> strip_prefix (lit "rue") r)
          else if c =? 102 then
            of_option (pair (VBool false) <$> strip_prefix (lit "alse") r)
          else if c =? 110 then
            of_option (pair VNull <$> strip_prefix (lit "ull") r)
          else if (c =? 45) || ((48 <=? c) && (c <=? 57)) then
            parsed_map VNum (of_option (lex_number (c :: r)))
          else Reject
      end
  end

with parse_elements (fuel : nat) (s : jsstring) : parsed (list value) :=
  match fuel with
  | O => OutOfFuel
  | S fuel =>
      match parse_value fuel s with
      | Parsed v r =>
          match skip_ws r with
          | c :: r' =>
              if c =? 44 then parsed_map (cons v) (parse_elements fuel r')
              else if c =? 93 then Parsed [v] r'
              else Reject
          | [] => Reject
          end
      | Reject => Reject
      | OutOfFuel => OutOfFuel
      end
  end

with parse_members (fuel : nat) (s : jsstring)
  : parsed (list (jsstring * value)) :=
  match fuel with
  | O => OutOfFuel
  | S fuel =>
      match skip_ws s with
      | c :: r =>
          if c =? 34 then
            match lex_string r with
            | Some (k, r1) =>
                match skip_ws r1 with
                | c1 :: r2 =>
                    if c1 =? 58 then
                      match parse_value fuel r2 with
                      | Parsed v r3 =>
                          match skip_ws r3 with
                          | c3 :: r4 =>
                              if c3 =? 44 then
                                parsed_map (cons (k, v)) (parse_members fuel r4)
                              else if c3 =? 125 then Parsed [(k, v)] r4
                              else Reject
                          | [] => Reject
                          end
                      | Reject => Reject
                      | OutOfFuel => OutOfFuel
                      end
                    else Reject
                | [] => Reject
                end
            | None => Reject
            end
          else Reject
      | [] => Reject
      end
  end.

(** The whole text must be one JSONValue between optional white space. *)
Definition parse_text (fuel : nat) (text : jsstring) : parsed value :=
  match parse_value fuel text with
  | Parsed v rest =>
      match skip_ws rest with
      | [] => Parsed v []
      | _ :: _ => Reject
      end
  | Reject => Reject
  | OutOfFuel => OutOfFuel
  end.

(** [JSON.parse(text)]: the value of the text, or a [SyntaxError]. *)
Definition parse (text : jsstring) : result value :=
  match parse_text (2 * length text + 1) text with
  | Parsed v _ => Ok v
  | Reject => Throw SyntaxError
  | OutOfFuel => Throw SyntaxError
  end.

End JSON.

(** ** localStorage *)

Module localStorage.

(** The storage area of the page's origin: its key/value pairs and the
    number of code units the user agent lets the area hold. The standard
    leaves the limit to the user agent; it only requires [setItem] to throw
    [QuotaExceededError] when the new value cannot be set. *)
Record Storage : Type := {
  entries : gmap (list N) (list N);
  quota : N
}.

Definition usage (m : gmap (list N) (list N)) : N :=
  map_fold (fun k v acc => acc + N.of_nat (length k) + N.of_nat (length v)) 0 m.

(** [localStorage.getItem(key)]: the stored string, or [None] for [null]. *)
Definition getItem (ls : Storage) (key : jsstring) : option jsstring :=
  entries ls !! key.

(** [localStorage.setItem(key, v)] *)
Definition setItem (ls : Storage) (key v : jsstring) : result Storage :=
  let m := <[key := v]> (entries ls) in
  if usage m <=? quota ls
  then Ok {| entries := m; quota := quota ls |}
  else Throw QuotaExceededError.

End localStorage.
Import localStorage (Storage).

(** ** The component [App] *)

(** The two state variables of [App]. *)
Record state : Type := {
  todos : value;
  inputValue : jsstring
}.

(** A call of one of the two state setters. *)
Inductive setter : Type :=
| setTodos (v : value)
| setInputValue (s : jsstring).

(** [useState(() => { ... })], lines 12-17: the initial value of [todos]. An
    exception of [JSON.parse] is not caught. *)
Definition initialize (ls : Storage) : result value :=
  let savedTodos := localStorage.getItem ls (lit "todos") in
  match savedTodos with
  | Some ((_ :: _) as s) => JSON.parse s
  | Some [] => Ok (VArr [])
  | None => Ok (VArr [])
  end.

(** [useEffect(() => { ... }, [todos])], lines 23-25. An exception of
    [setItem] is not caught. *)
Definition save (v : value) (ls : Storage) : result Storage :=
  localStorage.setItem ls (lit "todos") (JSON.stringify v).

(** [handleAddTodo], lines 28-43; [now] is the value of [Date.now()]. *)
Definition handleAddTodo (now : Z) (st : state) : result (list setter) :=
  match trim (inputValue st) with
  | (_ :: _) as trimmed =>
      let newTodo :=
        VObj [(lit "id", VNum (NumInt now));
              (lit "text", VStr trimmed);
              (lit "completed", VBool false)] in
      let* elems := iterate (todos st) in
      Ok [setTodos (VArr (elems ++ [newTodo])); setInputValue []]
  | [] => Ok []
  end.

(** [todo.id === id ? { ...todo, completed: !todo.completed } : todo] *)
Definition toggle_if_matches (id : prim) (todo : value) : result value :=
  let* todo_id := get todo (lit "id") in
  if strict_equals todo_id id then
    let* todo_completed := get todo (lit "completed") in
    Ok (VObj (define_property (lit "completed")
                (VBool (negb (to_boolean todo_completed)))
                (own_properties todo)))
  else Ok todo.

(** [handleToggleCompleted], lines 46-52. Only arrays have a [map] method
    among the values of the model; on anything else the call throws. *)
Definition handleToggleCompleted (id : prim) (st : state)
  : result (list setter) :=
  match todos st with
  | VArr elems =>
      let* elems' := mapM (toggle_if_matches id) elems in
      Ok [setTodos (VArr elems')]
  | _ => Throw TypeError
  end.

(** [todos.filter(p)] where [p] may throw. *)
Fixpoint filterM {A} (p : A -> result bool) (l : list A) : result (list A) :=
  match l with
  | [] => Ok []
  | x :: r =>
      let* keep := p x in
      let* r' := filterM p r in
      Ok (if keep then x :: r' else r')
  end.

(** [todo.id !== id] *)
Definition differs (id : prim) (todo : value) : result bool :=
  let* todo_id := get todo (lit "id") in
  Ok (negb (strict_equals todo_id id)).

(** [handleDeleteTodo], lines 55-57. *)
Definition handleDeleteTodo (id : prim) (st : state)
  : result (list setter) :=
  match todos st with
  | VArr elems =>
      let* elems' := filterM (differs id) elems in
      Ok [setTodos (VArr elems')]
  | _ => Throw TypeError
  end.

(** *** Events *)

(** What the user can do, with what the environment supplies: the text typed
    in the input, the clock reading at a submission, the [id] of the item
    clicked. *)
Inductive event : Type :=
| Change (v : jsstring)       (* onChange: [setInputValue(e.target.value)] *)
| Submit (now : Z)            (* onSubmit: [handleAddTodo] *)
| ToggleClick (id : prim)     (* onClick: [handleToggleCompleted(todo.id)] *)
| DeleteClick (id : prim).    (* onClick: [handleDeleteTodo(todo.id)] *)

Definition handle (ev : event) (st : state) : result (list setter) :=
  match ev with
  | Change v => Ok [setInputValue v]
  | Submit now => handleAddTodo now st
  | ToggleClick id => handleToggleCompleted id st
  | DeleteClick id => handleDeleteTodo id st
  end.

Definition set_state (st : state) (u : setter) : state :=
  match u with
  | setTodos v => {| todos := v; inputValue := inputValue st |}
  | setInputValue s => {| todos := todos st; inputValue := s |}
  end.

(** The state after an event. Every handler runs on the state of the latest
    render, and a handler that throws has called no setter. *)
Definition next_state (ev : event) (st : state) : state :=
  match handle ev st with
  | Ok us => fold_left set_state us st
  | Throw _ => st
  end.

Definition run (evs : list event) (st : state) : state :=
  fold_left (fun st ev => next_state ev st) evs st.

(** [todos] is a dependency of the save effect: the effect runs after a
    render in which [setTodos] installed a new array. *)
Definition sets_todos (us : list setter) : bool :=
  existsb (fun u => match u with setTodos _ => true | _ => false end) us.

(** The component together with the storage area, and the exception, if any,
    that left the handler, the render or the effect without being caught.
    What React does with such an exception is not decided by the source and
    is not modelled. *)
Record world : Type := {
  component : state;
  storage : Storage;
  uncaught : option exn
}.

(** [todos.length] *)
Definition get_length (v : value) : result (option value) :=
  match v with
  | VNull => Throw TypeError
  | VArr l => Ok (Some (VNum (NumInt (Z.of_nat (length l)))))
  | VStr s => Ok (Some (VNum (NumInt (Z.of_nat (length s)))))
  | VObj ps => Ok (lookup_property (lit "length") ps)
  | _ => Ok None
  end.

(** The [return] of [App], lines 59-159, as far as its evaluation can throw:
    [todos.length === 0 ? ... : todos.map((todo) => ...)], where the callback
    reads [todo.id], [todo.completed] and [todo.text]. The elements it
    builds, and what React does with them, are presentation. *)
Definition render (st : state) : result unit :=
  let* len := get_length (todos st) in
  if strict_equals len (PNum (NumInt 0)) then Ok tt
  else
    match todos st with
    | VArr elems =>
        let* _ := mapM (fun todo => get todo (lit "id")) elems in Ok tt
    | _ => Throw TypeError
    end.

(** The save effect after a render. *)
Definition run_effect (st : state) (ls : Storage) : world :=
  match save (todos st) ls with
  | Ok ls' => {| component := st; storage := ls'; uncaught := None |}
  | Throw e => {| component := st; storage := ls; uncaught := Some e |}
  end.

(** One event: the handler runs; if it called a setter the component is
    rendered with the new state; then the save effect runs if [todos] was
    set. *)
Definition dispatch (ev : event) (w : world) : world :=
  match handle ev (component w) with
  | Throw e =>
      {| component := component w; storage := storage w; uncaught := Some e |}
  | Ok [] =>
      {| component := component w; storage := storage w; uncaught := None |}
  | Ok us =>
      let st := fold_left set_state us (component w) in
      match render st with
      | Throw e =>
          {| component := st; storage := storage w; uncaught := Some e |}
      | Ok _ =>
          if sets_todos us then run_effect st (storage w)
          else {| component := st; storage := storage w; uncaught := None |}
      end
  end.

(** The first render and the first run of the save effect. When the
    initializer or the first render throws, no component is mounted. *)
Definition mount (ls : Storage) : result world :=
  let* v := initialize ls in
  let st := {| todos := v; inputValue := [] |} in
  let* _ := render st in
  Ok (run_effect st ls).

(** The operation [add(rawText)] of the store: the text is typed, then the
    form is submitted. *)
Definition add (now : Z) (rawText : jsstring) (st : state) : state :=
  next_state (Submit now) (next_state (Change rawText) st).

(** ** Items *)

(** The shape of the objects [handleAddTodo] creates. *)
Module Item.
Record t : Type := { id : Z; text : jsstring; completed : bool }.

Definition to_value (x : t) : value :=
  VObj [(lit "id", VNum (NumInt (id x)));
        (lit "text", VStr (text x));
        (lit "completed", VBool (completed x))].

(** The item with the flag negated. *)
Definition flip (x : t) : t :=
  {| id := id x; text := text x; completed := negb (completed x) |}.

(** [todo.id === id] on an item: only a number can match. *)
Definition has_id (p : prim) (x : t) : bool :=
  match p with
  | PNum (NumInt z) => Z.eqb (id x) z
  | _ => false
  end.
End Item.

(** A collection of items as the array held in [todos]. *)
Definition collection (c : list Item.t) : value :=
  VArr (List.map Item.to_value c).

Definition empty_state : state := {| todos := VArr []; inputValue := [] |}.

(** ** Vocabulary of the proofs *)

(** The typed reading of lines 48-50: every matching item is replaced by its
    flipped copy. *)
Definition toggled (p : prim) (c : list Item.t) : list Item.t :=
  List.map (fun x => if Item.has_id p x then Item.flip x else x) c.

(** The typed reading of line 56: the items that do not match are kept. *)
Definition remaining (p : prim) (c : list Item.t) : list Item.t :=
  List.filter (fun x => negb (Item.has_id p x)) c.

(** The text after a number: it starts with no digit, point or exponent
    mark. *)
Definition ends_number (rest : jsstring) : bool :=
  match rest with
  | [] => true
  | c :: _ =>
      negb (((48 <=? c) && (c <=? 57)) || (c =? 46) || (c =? 101) || (c =? 69))
  end.

(** [Decimal.nztail] works on the reversed digits with this loop. *)
Fixpoint nztail_aux (u : Decimal.uint) : Decimal.uint * nat :=
  match u with
  | Decimal.D0 u' => let (r, n) := nztail_aux u' in (r, S n)
  | _ => (u, O)
  end.

(** The exponent form of Number::toString: one digit, the other digits
    after a point if there are any, and the exponent part. *)
Definition exponent_form (d : digits) (hs : list digits) (e : Z) : jsstring :=
  digit_unit d
  :: match hs with
     | [] => []
     | _ :: _ => 46 :: List.map digit_unit hs
     end ++ exponent_part e.

(** A parse that ends, and that consumes input when it succeeds. *)
Definition shrinks {A} (s : jsstring) (r : JSON.parsed A) : Prop :=
  match r with
  | JSON.Parsed _ rest => (length rest < length s)%nat
  | JSON.Reject => True
  | JSON.OutOfFuel => False
  end.


(** The item [add] creates from a clock reading and a raw text. *)
Definition new_item (call : Z * jsstring) : Item.t :=
  {| Item.id := fst call; Item.text := trim (snd call);
     Item.completed := false |}.

(** The calls of [add] whose trimmed text is not empty. *)
Definition not_blank (call : Z * jsstring) : bool :=
  match trim (snd call) with
  | [] => false
  | _ :: _ => true
  end.

(** A sequence of [add] calls, each with its clock reading. *)
Definition add_all (calls : list (Z * jsstring)) (st : state) : state :=
  fold_left (fun st call => add (fst call) (snd call) st) calls st.

(** The clock readings of the submissions of a run increase strictly, from
    above [last] on. *)
Fixpoint clock_increases (last : Z) (evs : list event) : Prop :=
  match evs with
  | [] => True
  | Submit now :: r => (last < now)%Z /\ clock_increases now r
  | _ :: r => clock_increases last r
  end.

(** *** Examples *)

(** An ASCII literal in which an apostrophe stands for a double quote. *)
Definition lit_q (s : string) : jsstring :=
  List.map (fun c => if c =? 39 then 34 else c) (lit s).

(** Two items created at the same clock reading, and the storage areas used
    in the examples. *)
Definition milk : Item.t :=
  {| Item.id := 1000; Item.text := lit "Buy milk"; Item.completed := false |}.
Definition eggs : Item.t :=
  {| Item.id := 1000; Item.text := lit "Buy eggs"; Item.completed := false |}.

Definition roomy : Storage :=
  {| localStorage.entries := ∅; localStorage.quota := 5000000 |}.
Definition full : Storage :=
  {| localStorage.entries := ∅; localStorage.quota := 0 |}.
Definition corrupted : Storage :=
  {| localStorage.entries := {[ lit "todos" := lit "[{oops" ]};
     localStorage.quota := 5000000 |}.
Definition foreign : Storage :=
  {| localStorage.entries := {[ lit "todos" := lit_q "{'id':null}" ]};
     localStorage.quota := 5000000 |}.


(** ** Vocabulary of the further properties *)

(** The stored copy agrees with the state: the string under [todos] is the
    text of the current value of [todos]. *)
Definition in_sync (w : world) : Prop :=
  localStorage.getItem (storage w) (lit "todos")
  = Some (JSON.stringify (todos (component w))).

(** A sequence of events, one [dispatch] after the other. *)
Definition dispatch_all (evs : list event) (w : world) : world :=
  fold_left (fun w ev => dispatch ev w) evs w.

(** No event of the sequence ends with an exception. *)
Fixpoint clean (evs : list event) (w : world) : Prop :=
  match evs with
  | [] => True
  | ev :: r => uncaught (dispatch ev w) = None /\ clean r (dispatch ev w)
  end.

Definition is_null (v : value) : bool :=
  match v with
  | VNull => true
  | _ => false
  end.

(** [todo.id] on a value other than [null]. *)
Definition id_of (todo : value) : option value :=
  match todo with
  | VObj ps => lookup_property (lit "id") ps
  | _ => None
  end.


(** A text that is not empty and that [trim] leaves as it is. *)
Definition tidy (s : jsstring) : Prop := s <> [] /\ trim s = s.



(** * Properties *)

(** ** The model on concrete inputs *)

Section Examples.

Example trim_example : trim (lit "  Buy milk ") = lit "Buy milk".
Proof. reflexivity. Qed.

Example trim_line_terminators : trim [10; 9; 160; 65279; 8232] = [].
Proof. reflexivity. Qed.

Example stringify_item_example :
  JSON.stringify (collection [milk])
  = lit_q "[{'id':1000,'text':'Buy milk','completed':false}]".
Proof. vm_compute. reflexivity. Qed.

Example stringify_escapes :
  JSON.stringify (VStr [34; 92; 10; 1; 55357; 56832; 56832])
  = [34; 92; 34; 92; 92] ++ lit "\n\u0001" ++ [55357; 56832]
    ++ lit "\ude00" ++ [34].
Proof. vm_compute. reflexivity. Qed.

Example stringify_numbers :
  List.map Number_toString
    [NumInt 0; NumInt (-1754000000123); NumInt (10 ^ 21); NumDec 15 1;
     NumDec (-1) 6; NumDec 1 7; NumDec 12345 2]
  = [lit "0"; lit "-1754000000123"; lit "1e+21"; lit "1.5";
     lit "-0.000001"; lit "1e-7"; lit "123.45"].
Proof. vm_compute. reflexivity. Qed.

Example parse_numbers :
  JSON.parse (lit " [1.50e1, -0, 1e21, 0.25E-1 ] ")
  = Ok (VArr [VNum (NumInt 15); VNum (NumInt 0); VNum (NumInt (10 ^ 21));
              VNum (NumDec 25 3)]).
Proof. vm_compute. reflexivity. Qed.

Example parse_object_key_order :
  JSON.parse (lit_q "{'b':1,'10':[true],'2':null,'b':'xA'}")
  = Ok (VObj [(lit "2", VNull); (lit "10", VArr [VBool true]);
              (lit "b", VStr (lit "xA"))]).
Proof. vm_compute. reflexivity. Qed.

Example parse_rejects :
  List.map JSON.parse
    [lit ""; lit "[1,]"; lit "01"; lit "1."; lit "nul"; lit "[1 2]";
     lit "{a:1}"; lit_q "'a"; lit_q "{'a':1,}"; lit "[] x"; [65279; 91; 93]]
  = List.repeat (Throw SyntaxError) 11.
Proof. vm_compute. reflexivity. Qed.

(** The scenarios of the specification: add, toggle, remove. *)
Example scenario_buy_milk :
  run [Change (lit "Buy milk"); Submit 1000] empty_state
  = {| todos := collection [milk]; inputValue := [] |}
  /\ run [Change (lit "Buy milk"); Submit 1000;
          ToggleClick (PNum (NumInt 1000))]
       empty_state
     = {| todos := collection [Item.flip milk]; inputValue := [] |}
  /\ run [Change (lit "Buy milk"); Submit 1000;
          ToggleClick (PNum (NumInt 1000));
          DeleteClick (PNum (NumInt 1000))]
       empty_state
     = empty_state.
Proof. repeat split; vm_compute; reflexivity. Qed.

Example scenario_blank :
  add 1000 (lit "  ") empty_state
  = {| todos := VArr []; inputValue := lit "  " |}.
Proof. reflexivity. Qed.

(** A value that is not a collection of items: the handlers and the render
    follow the semantics of the language. *)
Example toggle_on_foreign_values :
  handleToggleCompleted PUndefined
    {| todos := VArr [VNum (NumInt 7); VObj [(lit "completed", VStr [])]];
       inputValue := [] |}
  = Ok [setTodos (VArr [VObj [(lit "completed", VBool true)];
                        VObj [(lit "completed", VBool true)]])]
  /\ handleToggleCompleted (PNum (NumInt 1))
       {| todos := VArr [VNull]; inputValue := [] |} = Throw TypeError
  /\ handleDeleteTodo (PNum (NumInt 1))
       {| todos := VObj []; inputValue := [] |} = Throw TypeError
  /\ render {| todos := VNum (NumInt 42); inputValue := [] |}
     = Throw TypeError.
Proof. repeat split; vm_compute; reflexivity. Qed.

End Examples.

(** ** Trimming *)

Section Trim.

Lemma trim_start_spec s :
  exists pre,
    s = pre ++ trim_start s
    /\ List.forallb is_trimmed_unit pre = true
    /\ match trim_start s with
       | [] => True
       | c :: _ => is_trimmed_unit c = false
       end.
Proof.
  induction s as [|c s (pre & Hs & Hp & Hh)].
  - exists []. repeat split.
  - cbn [trim_start]. destruct (is_trimmed_unit c) eqn:E.
    + exists (c :: pre). cbn [Datatypes.app List.forallb]. rewrite E, Hp.
      repeat split; [now f_equal|exact Hh].
    + exists []. repeat split. exact E.
Qed.

(** [trim] removes a prefix and a suffix made of white space and line
    terminators, and what it leaves neither starts nor ends with one. *)
Lemma trim_spec s :
  exists pre post,
    s = pre ++ trim s ++ post
    /\ List.forallb is_trimmed_unit pre = true
    /\ List.forallb is_trimmed_unit post = true
    /\ match trim s with
       | [] => True
       | c :: _ => is_trimmed_unit c = false
       end
    /\ match List.rev (trim s) with
       | [] => True
       | c :: _ => is_trimmed_unit c = false
       end.
Proof.
  unfold trim, trim_end.
  destruct (trim_start_spec s) as (pre & Hs & Hp & Hh).
  destruct (trim_start_spec (List.rev (trim_start s))) as (tsop & Hr & Ht & Hl).
  set (body := trim_start (List.rev (trim_start s))) in *.
  exists pre, (List.rev tsop).
  assert (Hm : trim_start s = List.rev body ++ List.rev tsop).
  { rewrite <- List.rev_app_distr, <- Hr. now rewrite List.rev_involutive. }
  split; [rewrite <- Hm; exact Hs|].
  split; [exact Hp|]. split.
  { rewrite List.forallb_forall in Ht |- *. intros c Hc. apply Ht.
    now apply List.in_rev. }
  split; [|now rewrite List.rev_involutive].
  rewrite Hm in Hh. destruct (List.rev body) as [|c r] eqn:E; [trivial|].
  exact Hh.
Qed.

End Trim.


(** ** The handlers on collections of items *)

Section Handlers.

Implicit Types (c : list Item.t) (x : Item.t) (p : prim) (st : state).

(** The array of a collection determines the collection: nothing of an item
    is lost in [Item.to_value]. *)
Lemma collection_inj c c' : collection c = collection c' -> c = c'.
Proof.
  unfold collection. intros H. injection H as H. revert c' H.
  induction c as [|x c IH]; intros [|y c'] H; try discriminate H.
  - reflexivity.
  - cbn [List.map] in H. injection H as Hi Ht Hc H.
    destruct x, y. cbn in *. subst. f_equal. now apply IH.
Qed.

Lemma strict_equals_item_id x p :
  strict_equals (Some (VNum (NumInt (Item.id x)))) p = Item.has_id p x.
Proof. destruct p as [| |b|[z|m e]|s]; reflexivity. Qed.

Lemma toggle_if_matches_item p x :
  toggle_if_matches p (Item.to_value x)
  = Ok (Item.to_value (if Item.has_id p x then Item.flip x else x)).
Proof.
  unfold toggle_if_matches.
  change (get (Item.to_value x) (lit "id"))
    with (Ok (A := option value) (Some (VNum (NumInt (Item.id x))))).
  cbn [bind]. rewrite strict_equals_item_id.
  destruct (Item.has_id p x); reflexivity.
Qed.

Lemma differs_item p x :
  differs p (Item.to_value x) = Ok (negb (Item.has_id p x)).
Proof.
  unfold differs.
  change (get (Item.to_value x) (lit "id"))
    with (Ok (A := option value) (Some (VNum (NumInt (Item.id x))))).
  cbn [bind]. now rewrite strict_equals_item_id.
Qed.

Lemma mapM_toggle p c :
  mapM (toggle_if_matches p) (List.map Item.to_value c)
  = Ok (List.map Item.to_value (toggled p c)).
Proof.
  induction c as [|x c IH]; [reflexivity|].
  cbn [List.map mapM]. rewrite toggle_if_matches_item. cbn [bind].
  rewrite IH. reflexivity.
Qed.

Lemma filterM_differs p c :
  filterM (differs p) (List.map Item.to_value c)
  = Ok (List.map Item.to_value (remaining p c)).
Proof.
  induction c as [|x c IH]; [reflexivity|].
  cbn [List.map filterM]. rewrite differs_item. cbn [bind].
  rewrite IH. cbn [bind remaining List.filter].
  destruct (Item.has_id p x); reflexivity.
Qed.

Lemma handleToggleCompleted_collection p c inp :
  handleToggleCompleted p {| todos := collection c; inputValue := inp |}
  = Ok [setTodos (collection (toggled p c))].
Proof.
  unfold handleToggleCompleted, collection. cbn [todos].
  now rewrite mapM_toggle.
Qed.

Lemma handleDeleteTodo_collection p c inp :
  handleDeleteTodo p {| todos := collection c; inputValue := inp |}
  = Ok [setTodos (collection (remaining p c))].
Proof.
  unfold handleDeleteTodo, collection. cbn [todos].
  now rewrite filterM_differs.
Qed.

Lemma flip_flip x : Item.flip (Item.flip x) = x.
Proof.
  destruct x as [i s b]. unfold Item.flip; cbn. now rewrite negb_involutive.
Qed.

Lemma has_id_flip p x : Item.has_id p (Item.flip x) = Item.has_id p x.
Proof. destruct p as [| |b|[z|m e]|s]; reflexivity. Qed.

Lemma toggled_toggled p c : toggled p (toggled p c) = c.
Proof.
  unfold toggled. rewrite List.map_map.
  rewrite <- (List.map_id c) at 2. apply List.map_ext. intros x.
  destruct (Item.has_id p x) eqn:E.
  - now rewrite has_id_flip, E, flip_flip.
  - now rewrite E.
Qed.

Lemma toggled_absent p c :
  List.forallb (fun x => negb (Item.has_id p x)) c = true -> toggled p c = c.
Proof.
  intros H. unfold toggled. rewrite <- (List.map_id c) at 2.
  apply List.map_ext_in. intros x Hx.
  rewrite List.forallb_forall in H. specialize (H x Hx).
  now destruct (Item.has_id p x).
Qed.

End Handlers.

(** ** Strings survive quoting *)

Section Quote.

Import JSON.

Lemma hex_value_hex_digit d : d < 16 -> hex_value (hex_digit d) = Some d.
Proof.
  intros H.
  assert (E : d = 0 \/ d = 1 \/ d = 2 \/ d = 3 \/ d = 4 \/ d = 5 \/ d = 6
              \/ d = 7 \/ d = 8 \/ d = 9 \/ d = 10 \/ d = 11 \/ d = 12
              \/ d = 13 \/ d = 14 \/ d = 15) by lia.
  repeat (destruct E as [-> | E]; [reflexivity|]). now subst.
Qed.

Lemma hex4_unicode_escape c :
  c < 65536 ->
  hex4 (hex_digit (c / 4096 mod 16)) (hex_digit (c / 256 mod 16))
       (hex_digit (c / 16 mod 16)) (hex_digit (c mod 16)) = Some c.
Proof.
  intros H. unfold hex4.
  rewrite !hex_value_hex_digit by (apply N.mod_lt; lia).
  f_equal.
  pose proof (N.div_mod c 16 ltac:(lia)).
  pose proof (N.div_mod (c / 16) 16 ltac:(lia)).
  pose proof (N.div_mod (c / 16 / 16) 16 ltac:(lia)).
  pose proof (N.mod_small (c / 16 / 16 / 16) 16) as Hs.
  replace (c / 256) with (c / 16 / 16)
    by (rewrite N.Div0.div_div; reflexivity).
  replace (c / 4096) with (c / 16 / 16 / 16)
    by (rewrite !N.Div0.div_div; reflexivity).
  assert (c / 16 / 16 / 16 < 16).
  { rewrite !N.Div0.div_div. apply N.Div0.div_lt_upper_bound. lia. }
  rewrite Hs by assumption. lia.
Qed.

Lemma lex_string_plain c t :
  (c <? 32) = false -> (c =? 34) = false -> (c =? 92) = false ->
  lex_string (c :: t) = cons_fst c (lex_string t).
Proof. intros H1 H2 H3. cbn [lex_string]. now rewrite H2, H3, H1. Qed.

Lemma lex_string_quote_unit c t :
  lex_string (quote_unit c ++ t) = cons_fst c (lex_string t).
Proof.
  unfold quote_unit.
  repeat match goal with
         | |- context [if ?c =? ?k then _ else _] =>
             destruct (N.eqb_spec c k) as [->|]; [reflexivity|]
         end.
  destruct ((c <? 32) || is_high_surrogate c || is_low_surrogate c) eqn:E.
  - assert (Hc : c < 65536).
    { unfold is_high_surrogate, is_low_surrogate in E. lia. }
    unfold unicode_escape. cbn [app lex_string N.eqb Pos.eqb].
    now rewrite hex4_unicode_escape.
  - apply lex_string_plain; lia.
Qed.

Lemma lex_string_pair c c' t :
  is_high_surrogate c && is_low_surrogate c' = true ->
  lex_string (c :: c' :: t) = cons_fst c (cons_fst c' (lex_string t)).
Proof.
  unfold is_high_surrogate, is_low_surrogate. intros H.
  rewrite !lex_string_plain by lia. reflexivity.
Qed.

Lemma quote_units_cons c c' r :
  quote_units (c :: c' :: r)
  = if is_high_surrogate c && is_low_surrogate c'
    then c :: c' :: quote_units r
    else quote_unit c ++ quote_units (c' :: r).
Proof. reflexivity. Qed.

(** Reading back a quoted string yields the string, whatever its code
    units. *)
Lemma lex_string_quote_units s rest :
  lex_string (quote_units s ++ 34 :: rest) = Some (s, rest).
Proof.
  remember (length s) as n eqn:Hn.
  revert s Hn. induction n as [n IH] using lt_wf_ind. intros s Hn.
  destruct s as [|c [|c' r]].
  - reflexivity.
  - cbn [quote_units]. rewrite lex_string_quote_unit. reflexivity.
  - rewrite quote_units_cons.
    destruct (is_high_surrogate c && is_low_surrogate c') eqn:E.
    + cbn [app]. rewrite lex_string_pair by assumption.
      rewrite (IH (length r) ltac:(cbn in Hn; lia) r eq_refl).
      reflexivity.
    + rewrite <- app_assoc, lex_string_quote_unit.
      rewrite (IH (length (c' :: r)) ltac:(cbn in Hn |- *; lia)
                 (c' :: r) eq_refl).
      reflexivity.
Qed.

Lemma lex_string_quote s rest :
  lex_string (List.tl (quote s) ++ rest) = Some (s, rest).
Proof.
  unfold quote. cbn [app List.tl]. rewrite <- app_assoc.
  apply lex_string_quote_units.
Qed.

End Quote.

(** ** Integers survive printing *)

Section Numbers.

Import JSON.

Lemma digit_of_unit_digit_unit d : digit_of_unit (digit_unit d) = Some d.
Proof. destruct d; reflexivity. Qed.

Lemma digit_of_unit_None c :
  ((48 <=? c) && (c <=? 57)) = false -> digit_of_unit c = None.
Proof.
  intros H. unfold digit_of_unit.
  repeat match goal with
         | |- context [if ?c =? ?k then _ else _] =>
             destruct (N.eqb_spec c k) as [->|]; [discriminate H|]
         end.
  reflexivity.
Qed.

Lemma lex_digits_stop rest :
  match rest with
  | [] => True
  | c :: _ => ((48 <=? c) && (c <=? 57)) = false
  end ->
  lex_digits rest = ([], rest).
Proof.
  destruct rest as [|c r]; [reflexivity|]. intros H.
  cbn [lex_digits]. now rewrite digit_of_unit_None.
Qed.

Lemma lex_digits_units ds rest :
  match rest with
  | [] => True
  | c :: _ => ((48 <=? c) && (c <=? 57)) = false
  end ->
  lex_digits (List.map digit_unit ds ++ rest) = (ds, rest).
Proof.
  intros H. induction ds as [|d ds IH].
  - now apply lex_digits_stop.
  - cbn [List.map Datatypes.app lex_digits].
    now rewrite digit_of_unit_digit_unit, IH.
Qed.

Lemma ends_number_digit rest :
  ends_number rest = true ->
  match rest with
  | [] => True
  | c :: _ => ((48 <=? c) && (c <=? 57)) = false
  end.
Proof. destruct rest as [|c r]; [trivial|]. unfold ends_number. lia. Qed.

Lemma lex_fraction_none rest :
  ends_number rest = true -> lex_fraction rest = Some ([], rest).
Proof.
  destruct rest as [|c r]; [reflexivity|]. unfold ends_number, lex_fraction.
  intros H. destruct (N.eqb_spec c 46); [lia|reflexivity].
Qed.

Lemma lex_exponent_none rest :
  ends_number rest = true -> lex_exponent rest = Some (0%Z, rest).
Proof.
  destruct rest as [|c r]; [reflexivity|]. unfold ends_number, lex_exponent.
  intros H. destruct ((c =? 101) || (c =? 69)) eqn:E; [lia|reflexivity].
Qed.

(** The digits of a positive number start with a digit other than zero. *)
Lemma to_uint_head p :
  exists d ds, to_list (Pos.to_uint p) = d :: ds /\ d <> d0.
Proof.
  pose proof (DecimalPos.Unsigned.to_of (Pos.to_uint p)) as H.
  rewrite DecimalPos.Unsigned.of_to in H. cbn [N.to_uint] in H.
  pose proof (DecimalPos.Unsigned.to_uint_nonzero p) as Hz.
  assert (Hn : Decimal.nzhead (Pos.to_uint p) <> Decimal.Nil).
  { intros E. apply Hz. rewrite H. now apply unorm_0. }
  rewrite (unorm_nzhead _ Hn) in H.
  pose proof (nzhead_spec (Pos.to_uint p)) as Hs. rewrite <- H in Hs.
  destruct (to_list (Pos.to_uint p)) as [|d ds] eqn:E.
  - exfalso. apply Hn. rewrite <- H.
    rewrite <- (of_list_to_list (Pos.to_uint p)), E. reflexivity.
  - exists d, ds. split; [reflexivity|]. intros ->.
    cbn [lnzhead] in Hs. symmetry in Hs.
    now apply lnzhead_neq_d0_head in Hs.
Qed.

Lemma digits_N_to_list u : digits_N (to_list u) = N.of_uint u.
Proof. unfold digits_N. now rewrite of_list_to_list. Qed.

Lemma nztail_unfold d :
  Decimal.nztail d
  = let (r, n) := nztail_aux (Decimal.rev d) in (Decimal.rev r, n).
Proof. reflexivity. Qed.

Lemma nztail_aux_list u r n :
  nztail_aux u = (r, n) -> to_list u = List.repeat d0 n ++ to_list r.
Proof.
  revert r n. induction u; intros r n H; cbn [nztail_aux] in H;
    try (injection H as <- <-; reflexivity).
  destruct (nztail_aux u) as [r' n'] eqn:E. injection H as <- <-.
  cbn [to_list List.repeat Datatypes.app]. now rewrite (IHu _ _ eq_refl).
Qed.

Lemma nztail_list d h z :
  Decimal.nztail d = (h, z) -> to_list d = to_list h ++ List.repeat d0 z.
Proof.
  rewrite nztail_unfold. destruct (nztail_aux (Decimal.rev d)) as [r n] eqn:E.
  intros H. injection H as <- <-. apply nztail_aux_list in E.
  rewrite <- (rev_rev d), (rev_spec (Decimal.rev d)), E, (rev_spec r),
    List.rev_app_distr.
  f_equal. clear. induction n as [|n IH]; [reflexivity|].
  cbn [List.repeat List.rev]. rewrite IH. clear.
  induction n as [|n IH]; [reflexivity|]. cbn [List.repeat Datatypes.app].
  now rewrite IH.
Qed.

Lemma lex_exponent_part e rest :
  match rest with
  | [] => True
  | c :: _ => ((48 <=? c) && (c <=? 57)) = false
  end ->
  lex_exponent (exponent_part e ++ rest) = Some (e, rest).
Proof.
  intros H. unfold exponent_part, decimal, units_of_uint.
  assert (Hd : exists d ds, to_list (N.to_uint (Z.abs_N e)) = d :: ds).
  { destruct (to_list (N.to_uint (Z.abs_N e))) as [|d ds] eqn:E; [|eauto].
    exfalso. destruct (Z.abs_N e) as [|p]; [discriminate E|].
    destruct (to_uint_head p) as (d & ds & E' & _). cbn [N.to_uint] in E.
    congruence. }
  destruct Hd as (d & ds & Hd).
  assert (Hl : lex_digits
            (List.map digit_unit (to_list (N.to_uint (Z.abs_N e))) ++ rest)
            = (d :: ds, rest)).
  { rewrite lex_digits_units by assumption. now rewrite Hd. }
  assert (Hv : digits_N (d :: ds) = Z.abs_N e).
  { rewrite <- Hd, digits_N_to_list. apply DecimalN.Unsigned.of_to. }
  change (lit "e") with [101]. change (lit "-") with [45].
  change (lit "+") with [43].
  destruct (e <? 0)%Z eqn:Hs;
    cbn [Datatypes.app lex_exponent N.eqb Pos.eqb orb];
    rewrite Hl, Hv; do 2 f_equal; lia.
Qed.

Lemma make_number_int neg (m : N) :
  make_number neg m 0
  = NumInt (if neg then (- Z.of_N m)%Z else Z.of_N m).
Proof. unfold make_number. cbn. f_equal. lia. Qed.

(** A digit sequence without fraction and exponent. *)
Lemma lex_magnitude_plain neg d ds rest :
  d <> d0 \/ ds = [] ->
  ends_number rest = true ->
  lex_magnitude neg (List.map digit_unit (d :: ds) ++ rest)
  = Some (make_number neg (digits_N (d :: ds)) 0, rest).
Proof.
  intros Hd Hr. unfold lex_magnitude.
  rewrite lex_digits_units by now apply ends_number_digit.
  rewrite lex_fraction_none, lex_exponent_none by assumption.
  rewrite List.app_nil_r. cbn [length Z.of_nat Z.sub Z.opp Z.add].
  destruct d, ds; try reflexivity; destruct Hd; congruence.
Qed.

Lemma lex_digits_one d rest :
  match rest with
  | [] => True
  | c :: _ => ((48 <=? c) && (c <=? 57)) = false
  end ->
  lex_digits (digit_unit d :: rest) = ([d], rest).
Proof. intros H. now apply (lex_digits_units [d] rest). Qed.

Lemma lex_magnitude_exponent_form neg d hs e rest :
  match rest with
  | [] => True
  | c :: _ => ((48 <=? c) && (c <=? 57)) = false
  end ->
  lex_magnitude neg (exponent_form d hs e ++ rest)
  = Some (make_number neg (digits_N (d :: hs)) (e - Z.of_nat (length hs)),
          rest).
Proof.
  intros Hr. unfold lex_magnitude, exponent_form.
  assert (He : exists t, exponent_part e = 101 :: t)
    by (unfold exponent_part; change (lit "e") with [101]; eauto).
  destruct He as [t He].
  destruct hs as [|h hs].
  - cbn [Datatypes.app].
    rewrite lex_digits_one by (rewrite He; reflexivity).
    replace (lex_fraction (exponent_part e ++ rest))
      with (Some (@nil digits, exponent_part e ++ rest))
      by (rewrite He; reflexivity).
    rewrite lex_exponent_part by assumption.
    rewrite List.app_nil_r. now destruct d.
  - cbn [Datatypes.app].
    rewrite lex_digits_one by reflexivity.
    cbn [lex_fraction N.eqb Pos.eqb]. rewrite <- List.app_assoc.
    rewrite lex_digits_units by (rewrite He; reflexivity).
    rewrite lex_exponent_part by assumption.
    now destruct d.
Qed.

Lemma map_repeat_d0 z :
  List.map digit_unit (List.repeat d0 z) = List.repeat 48 z.
Proof. induction z as [|z IH]; [reflexivity|]. cbn. now rewrite IH. Qed.

Lemma format_digits_short ds n :
  (Z.of_nat (length ds) <= n <= 21)%Z ->
  format_digits (List.map digit_unit ds) n
  = List.map digit_unit ds
    ++ List.repeat 48 (Z.to_nat (n - Z.of_nat (length ds))).
Proof.
  intros H. unfold format_digits. rewrite List.length_map.
  now replace ((Z.of_nat (length ds) <=? n) && (n <=? 21))%Z with true by lia.
Qed.

Lemma format_digits_long d hs n :
  (21 < n)%Z ->
  format_digits (List.map digit_unit (d :: hs)) n = exponent_form d hs (n - 1).
Proof.
  intros H. unfold format_digits. rewrite List.length_map.
  replace ((Z.of_nat (length (d :: hs)) <=? n) && (n <=? 21))%Z
    with false by lia.
  replace ((0 <? n) && (n <=? 21))%Z with false by lia.
  replace ((-6 <? n) && (n <=? 0))%Z with false by lia.
  destruct hs; reflexivity.
Qed.

(** What Number::toString prints for a positive integer reads back as that
    integer, in the digit form and in the exponent form. *)
Lemma lex_magnitude_int neg p rest :
  ends_number rest = true ->
  lex_magnitude neg
    (format_digits (units_of_uint (fst (Decimal.nztail (Pos.to_uint p))))
       (Z.of_nat (Decimal.nb_digits (Pos.to_uint p))) ++ rest)
  = Some (NumInt (if neg then Z.neg p else Z.pos p), rest).
Proof.
  intros Hr.
  pose proof (DecimalPos.Unsigned.nztail_to_uint p) as F4.
  destruct (Decimal.nztail (Pos.to_uint p)) as [h z] eqn:Hz.
  pose proof (nztail_list _ _ _ Hz) as F1.
  destruct (to_uint_head p) as (d & tl & F2 & Hd).
  assert (F3 : exists hs, to_list h = d :: hs).
  { destruct (to_list h) as [|d' hs] eqn:E.
    - exfalso. cbn [Datatypes.app] in F1. rewrite F2 in F1.
      destruct z; [discriminate F1|]. injection F1 as -> _. now apply Hd.
    - rewrite F2 in F1. cbn [Datatypes.app] in F1.
      injection F1 as -> _. eauto. }
  destruct F3 as [hs F3].
  assert (F5 : Decimal.nb_digits (Pos.to_uint p) = (S (length hs) + z)%nat).
  { rewrite nb_digits_spec, F1, F3, List.length_app, List.repeat_length.
    reflexivity. }
  cbn [fst]. unfold units_of_uint. rewrite F3, F5.
  destruct (Z.of_nat (S (length hs) + z) <=? 21)%Z eqn:T.
  - rewrite format_digits_short by (cbn [length]; lia).
    replace (Z.to_nat (Z.of_nat (S (length hs) + z)
                       - Z.of_nat (length (d :: hs))))
      with z by (cbn [length]; lia).
    rewrite <- map_repeat_d0, <- List.map_app, <- F3, <- F1, F2.
    rewrite lex_magnitude_plain by (assumption || now left).
    rewrite <- F2, digits_N_to_list, make_number_int.
    change (N.of_uint (Pos.to_uint p)) with (Pos.of_uint (Pos.to_uint p)).
    rewrite DecimalPos.Unsigned.of_to. now destruct neg.
  - rewrite format_digits_long by lia.
    rewrite lex_magnitude_exponent_form by now apply ends_number_digit.
    rewrite <- F3, digits_N_to_list.
    replace (Z.of_nat (S (length hs) + z) - 1 - Z.of_nat (length hs))%Z
      with (Z.of_nat z) by lia.
    unfold make_number.
    replace (0 <=? Z.of_nat z)%Z with true by lia.
    f_equal.
    assert (E : (Z.of_N (N.of_uint h) * 10 ^ Z.of_nat z)%Z = Z.pos p).
    { change (Z.pos p) with (Z.of_N (N.pos p)). rewrite F4.
      rewrite N2Z.inj_mul, N2Z.inj_pow, nat_N_Z. reflexivity. }
    destruct neg; [rewrite Z.mul_opp_l, E | rewrite E]; reflexivity.
Qed.

Lemma lex_number_magnitude s r :
  lex_magnitude false s = Some r -> lex_number s = Some r.
Proof.
  destruct s as [|c s]; [discriminate|]. intros H. unfold lex_number.
  destruct (N.eqb_spec c 45) as [->|]; [discriminate H|exact H].
Qed.

(** [JSON.stringify] of an integer, read back by the number lexer. *)
Lemma lex_number_toString z rest :
  ends_number rest = true ->
  lex_number (Number_toString (NumInt z) ++ rest) = Some (NumInt z, rest).
Proof.
  intros Hr. destruct z as [|p|p].
  - apply lex_number_magnitude. change (Number_toString (NumInt 0)) with
      (List.map digit_unit [d0]).
    now rewrite lex_magnitude_plain by (assumption || now right).
  - apply lex_number_magnitude. now apply (lex_magnitude_int false).
  - cbn [Number_toString Z.ltb Z.compare]. change (lit "-") with [45].
    cbn [Datatypes.app lex_number N.eqb Pos.eqb].
    now apply (lex_magnitude_int true).
Qed.

End Numbers.

(** ** Collections survive the round trip through JSON *)

Section RoundTrip.

Import JSON.

Lemma lex_number_head s x :
  lex_number s = Some x ->
  exists c r, s = c :: r /\ ((c =? 45) || ((48 <=? c) && (c <=? 57))) = true.
Proof.
  destruct s as [|c r]; [discriminate|]. intros H. exists c, r.
  split; [reflexivity|]. unfold lex_number in H.
  destruct (N.eqb_spec c 45) as [->|Hc]; [reflexivity|].
  unfold lex_magnitude in H. cbn [lex_digits] in H.
  destruct (digit_of_unit c) eqn:E; [|discriminate H].
  unfold digit_of_unit in E.
  repeat match type of E with
         | (if ?c =? ?k then _ else _) = _ =>
             destruct (N.eqb_spec c k) as [->|]; [reflexivity|]
         end.
  discriminate E.
Qed.

Lemma parse_value_number fuel s n rest :
  lex_number s = Some (n, rest) ->
  parse_value (S fuel) s = Parsed (VNum n) rest.
Proof.
  intros H. destruct (lex_number_head _ _ H) as (c & r & -> & Hc).
  cbn [parse_value skip_ws].
  replace (is_ws c) with false by (unfold is_ws; lia).
  repeat match goal with
         | |- context [if ?c =? ?k then _ else _] =>
             destruct (N.eqb_spec c k) as [->|]; [discriminate Hc|]
         end.
  rewrite Hc, H. reflexivity.
Qed.

Lemma parse_value_string fuel t :
  parse_value (S fuel) (34 :: t) = parsed_map VStr (of_option (lex_string t)).
Proof. reflexivity. Qed.

Lemma parse_value_bool fuel b rest :
  parse_value (S fuel) (stringify (VBool b) ++ rest) = Parsed (VBool b) rest.
Proof.
  destruct b; reflexivity.
Qed.

Lemma stringify_item x rest :
  stringify (Item.to_value x) ++ rest
  = 123 :: 34 :: 105 :: 100 :: 34 :: 58
    :: Number_toString (NumInt (Item.id x))
    ++ 44 :: 34 :: 116 :: 101 :: 120 :: 116 :: 34 :: 58 :: 34
    :: quote_units (Item.text x)
    ++ 34 :: 44 :: 34 :: 99 :: 111 :: 109 :: 112 :: 108 :: 101 :: 116
    :: 101 :: 100 :: 34 :: 58
    :: stringify (VBool (Item.completed x)) ++ 125 :: rest.
Proof.
  unfold Item.to_value. cbn [stringify List.map join fst snd].
  change (quote (lit "id")) with [34; 105; 100; 34].
  change (quote (lit "text")) with [34; 116; 101; 120; 116; 34].
  change (quote (lit "completed"))
    with [34; 99; 111; 109; 112; 108; 101; 116; 101; 100; 34].
  change (lit "{") with [123]. change (lit "}") with [125].
  change (lit ",") with [44]. change (lit ":") with [58].
  unfold quote. 
  repeat (rewrite <- List.app_assoc; cbn [Datatypes.app]).
  destruct (Item.completed x); reflexivity.
Qed.

Lemma skip_ws_cons c r : is_ws c = false -> skip_ws (c :: r) = c :: r.
Proof. intros H. cbn [skip_ws]. now rewrite H. Qed.

Ltac skip_unit :=
  rewrite skip_ws_cons by reflexivity; cbn [N.eqb Pos.eqb].

Lemma parse_members_more fuel t k r2 v r4 :
  lex_string t = Some (k, 58 :: r2) ->
  parse_value fuel r2 = Parsed v (44 :: r4) ->
  parse_members (S fuel) (34 :: t)
  = parsed_map (cons (k, v)) (parse_members fuel r4).
Proof.
  intros Hk Hv. cbn [parse_members]. skip_unit. rewrite Hk. skip_unit.
  rewrite Hv. skip_unit. reflexivity.
Qed.

Lemma parse_members_last fuel t k r2 v r4 :
  lex_string t = Some (k, 58 :: r2) ->
  parse_value fuel r2 = Parsed v (125 :: r4) ->
  parse_members (S fuel) (34 :: t) = Parsed [(k, v)] r4.
Proof.
  intros Hk Hv. cbn [parse_members]. skip_unit. rewrite Hk. skip_unit.
  rewrite Hv. skip_unit. reflexivity.
Qed.

(** An item printed by [JSON.stringify] is read back by [parse_value] as the
    same object, with its three properties in the same order. *)
Lemma parse_value_item fuel x rest :
  parse_value (5 + fuel) (stringify (Item.to_value x) ++ rest)
  = Parsed (Item.to_value x) rest.
Proof.
  rewrite stringify_item.
  change (5 + fuel)%nat with (S (S (S (S (S fuel))))).
  cbn [parse_value]. skip_unit. skip_unit.
  erewrite parse_members_more; cycle 1.
  { reflexivity. }
  { apply parse_value_number, lex_number_toString. reflexivity. }
  erewrite parse_members_more; cycle 1.
  { reflexivity. }
  { rewrite parse_value_string, lex_string_quote_units. reflexivity. }
  erewrite parse_members_last; cycle 1.
  { reflexivity. }
  { apply parse_value_bool. }
  reflexivity.
Qed.

Lemma join_cons sep p q parts :
  join sep (p :: q :: parts) = p ++ sep ++ join sep (q :: parts).
Proof. reflexivity. Qed.

Lemma parse_elements_items c : forall x fuel rest,
  (6 + length c <= fuel)%nat ->
  parse_elements fuel
    (join (lit ",") (List.map stringify (List.map Item.to_value (x :: c)))
     ++ 93 :: rest)
  = Parsed (List.map Item.to_value (x :: c)) rest.
Proof.
  induction c as [|y c IH]; intros x fuel rest Hf.
  - destruct fuel as [|f]; [cbn in Hf; lia|].
    replace f with (5 + (f - 5))%nat by (cbn in Hf; lia).
    cbn [List.map join parse_elements].
    rewrite parse_value_item. skip_unit. reflexivity.
  - destruct fuel as [|f]; [cbn in Hf; lia|].
    cbn [List.map]. rewrite join_cons. cbn [parse_elements].
    rewrite <- !List.app_assoc. change (lit ",") with [44].
    cbn [Datatypes.app].
    replace f with (5 + (f - 5))%nat at 1 by (cbn in Hf; lia).
    rewrite parse_value_item. skip_unit.
    specialize (IH y f rest ltac:(cbn in Hf |- *; lia)).
    cbn [List.map] in IH. change (lit ",") with [44] in IH.
    rewrite IH. reflexivity.
Qed.

Lemma length_join sep parts :
  List.Forall (fun p => (1 <= length p)%nat) parts ->
  (length parts <= length (join sep parts))%nat.
Proof.
  induction parts as [|p [|q parts] IH]; intros H.
  - cbn. lia.
  - inversion H; subst. cbn. lia.
  - inversion H; subst. rewrite join_cons, !List.length_app.
    specialize (IH ltac:(assumption)). cbn [length] in IH |- *. lia.
Qed.

Lemma stringify_item_head x : exists r, stringify (Item.to_value x) = 123 :: r.
Proof.
  rewrite <- (List.app_nil_r (stringify _)), stringify_item. eauto.
Qed.

Lemma length_join_items c :
  (length c
   <= length (join (lit ",")
                (List.map stringify (List.map Item.to_value c))))%nat.
Proof.
  etransitivity; [|apply length_join].
  - rewrite !List.length_map. reflexivity.
  - rewrite List.Forall_map, List.Forall_map.
    apply List.Forall_forall. intros x _.
    destruct (stringify_item_head x) as [r ->]. cbn. lia.
Qed.

(** [JSON.parse(JSON.stringify(todos))] gives [todos] back when [todos] is a
    collection of items: same ids, texts and flags, in the same order. *)
Lemma parse_stringify_collection c :
  parse (stringify (collection c)) = Ok (collection c).
Proof.
  unfold parse, parse_text, collection. cbn [stringify].
  change (lit "[") with [91]. change (lit "]") with [93].
  destruct c as [|x c]; [reflexivity|].
  set (body := join (lit ",")
                 (List.map stringify (List.map Item.to_value (x :: c)))).
  pose proof (length_join_items (x :: c)) as Hl. fold body in Hl.
  assert (Hb : exists r, body = 123 :: r).
  { subst body. destruct (stringify_item_head x) as [r Hx].
    destruct c as [|y c]; cbn [List.map]; [cbn [join]|rewrite join_cons];
      rewrite Hx; cbn [Datatypes.app]; eauto. }
  destruct Hb as [r Hb].
  remember (2 * length ([91%N] ++ body ++ [93%N]) + 1)%nat as fuel eqn:Hfuel.
  assert (Hf : (7 + length c <= fuel)%nat).
  { subst fuel. rewrite !List.length_app. cbn [length] in Hl |- *. lia. }
  destruct fuel as [|f]; [lia|].
  cbn [Datatypes.app parse_value]. skip_unit.
  replace (skip_ws (body ++ [93])) with (123 :: r ++ [93])
    by (rewrite Hb; reflexivity).
  cbn [N.eqb Pos.eqb].
  subst body. rewrite parse_elements_items by lia.
  reflexivity.
Qed.

End RoundTrip.

(** ** The parser never runs out of fuel *)

Section Fuel.

Import JSON.

Lemma skip_ws_length s : (length (skip_ws s) <= length s)%nat.
Proof.
  induction s as [|c s IH]; [reflexivity|]. cbn [skip_ws].
  destruct (is_ws c); cbn [length]; lia.
Qed.

Lemma cons_fst_Some {A B} (a : A) (r : option (list A * B)) l b :
  cons_fst a r = Some (l, b) -> exists l', r = Some (l', b) /\ l = a :: l'.
Proof.
  destruct r as [[l' b']|]; [|discriminate]. cbn. intros H.
  injection H as <- <-. eauto.
Qed.

Lemma lex_string_length s : forall x r,
  lex_string s = Some (x, r) -> (length r < length s)%nat.
Proof.
  remember (length s) as n eqn:Hn. revert s Hn.
  induction n as [n IH] using lt_wf_ind. intros s -> x r H.
  destruct s as [|c s]; [discriminate H|]. cbn [lex_string] in H.
  destruct (c =? 34).
  { injection H as <- <-. cbn [length]. lia. }
  destruct (c =? 92).
  - destruct s as [|e s]; [discriminate H|].
    destruct (e =? 117).
    + destruct s as [|h1 [|h2 [|h3 [|h4 s]]]]; try discriminate H.
      destruct (hex4 h1 h2 h3 h4); [|discriminate H].
      apply cons_fst_Some in H as (l' & H & _).
      apply (IH (length s)) in H; cbn [length] in *; lia.
    + destruct (simple_escape e); [|discriminate H].
      apply cons_fst_Some in H as (l' & H & _).
      apply (IH (length s)) in H; cbn [length] in *; lia.
  - destruct (c <? 32); [discriminate H|].
    apply cons_fst_Some in H as (l' & H & _).
    apply (IH (length s)) in H; cbn [length] in *; lia.
Qed.

Lemma lex_digits_length s :
  (length (snd (lex_digits s)) + length (fst (lex_digits s)) = length s)%nat.
Proof.
  induction s as [|c s IH]; [reflexivity|]. cbn [lex_digits].
  destruct (digit_of_unit c); [|cbn; lia].
  destruct (lex_digits s) as [ds r]. cbn [fst snd length] in *. lia.
Qed.

Lemma lex_fraction_length s fp r :
  lex_fraction s = Some (fp, r) -> (length r <= length s)%nat.
Proof.
  destruct s as [|c s]; cbn [lex_fraction].
  - intros H. injection H as <- <-. reflexivity.
  - destruct (c =? 46).
    + pose proof (lex_digits_length s) as Hl.
      destruct (lex_digits s) as [[|d ds] r']; [discriminate|].
      intros H. injection H as <- <-. cbn [fst snd length] in *. lia.
    + intros H. injection H as <- <-. reflexivity.
Qed.

Lemma lex_exponent_length s ex r :
  lex_exponent s = Some (ex, r) -> (length r <= length s)%nat.
Proof.
  destruct s as [|c s]; cbn [lex_exponent].
  - intros H. injection H as <- <-. reflexivity.
  - destruct ((c =? 101) || (c =? 69)).
    + set (signed := match s with
                     | [] => (false, s)
                     | c' :: r' => if c' =? 45 then (true, r')
                                   else if c' =? 43 then (false, r')
                                   else (false, s)
                     end).
      assert (Hs : (length (snd signed) <= length s)%nat).
      { subst signed. destruct s as [|c' r']; [reflexivity|].
        destruct (c' =? 45); [cbn; lia|]. destruct (c' =? 43); cbn; lia. }
      destruct signed as [neg r1]. cbn [snd] in Hs.
      pose proof (lex_digits_length r1) as Hl.
      destruct (lex_digits r1) as [[|d ds] r']; [discriminate|].
      intros H. injection H as <- <-. cbn [fst snd length] in *. lia.
    + intros H. injection H as <- <-. reflexivity.
Qed.

Lemma lex_magnitude_length neg s n r :
  lex_magnitude neg s = Some (n, r) -> (length r < length s)%nat.
Proof.
  unfold lex_magnitude. pose proof (lex_digits_length s) as Hl.
  destruct (lex_digits s) as [ip s2]. cbn [fst snd] in Hl.
  assert (Hgen : forall ip', ip' = ip -> ip <> [] ->
     match lex_fraction s2 with
     | Some (fp, s3) =>
         match lex_exponent s3 with
         | Some (ex, s4) =>
             Some (make_number neg (digits_N (ip' ++ fp))
                     (ex - Z.of_nat (length fp)), s4)
         | None => None
         end
     | None => None
     end = Some (n, r) -> (length r < length s)%nat).
  { intros ip' _ Hne H.
    destruct (lex_fraction s2) as [[fp s3]|] eqn:Ef; [|discriminate H].
    destruct (lex_exponent s3) as [[ex s4]|] eqn:Ee; [|discriminate H].
    injection H as <- <-. apply lex_fraction_length in Ef.
    apply lex_exponent_length in Ee. destruct ip; [congruence|].
    cbn [length] in Hl. lia. }
  destruct ip as [|d [|d' ip]]; [discriminate| |].
  - destruct d; apply Hgen; congruence.
  - destruct d; try discriminate; apply Hgen; congruence.
Qed.

Lemma lex_number_length s n r :
  lex_number s = Some (n, r) -> (length r < length s)%nat.
Proof.
  destruct s as [|c s]; [discriminate|]. unfold lex_number.
  destruct (c =? 45); intros H; apply lex_magnitude_length in H;
    cbn [length] in *; lia.
Qed.

Lemma strip_prefix_length p : forall s r,
  strip_prefix p s = Some r -> (length r <= length s)%nat.
Proof.
  induction p as [|a p IH]; intros s r H; cbn [strip_prefix] in H.
  - injection H as <-. reflexivity.
  - destruct s as [|b s]; [discriminate H|].
    destruct (a =? b); [|discriminate H].
    apply IH in H. cbn [length]. lia.
Qed.

Lemma shrinks_map {A B} (f : A -> B) (s s' : jsstring) (r : parsed A) :
  shrinks s r -> (length s <= length s')%nat -> shrinks s' (parsed_map f r).
Proof. destruct r; cbn; intros; (lia || trivial). Qed.

Lemma shrinks_of_option {A} (s s' : jsstring) (r : option (A * jsstring)) :
  (forall a rest, r = Some (a, rest) -> (length rest <= length s)%nat) ->
  (length s < length s')%nat -> shrinks s' (of_option r).
Proof.
  destruct r as [[a rest]|]; cbn; [|trivial].
  intros H ?. specialize (H a rest eq_refl). lia.
Qed.

Lemma parse_fuel_enough fuel :
  (forall s, (2 * length s + 1 <= fuel)%nat -> shrinks s (parse_value fuel s))
  /\ (forall s, (2 * length s + 2 <= fuel)%nat ->
        shrinks s (parse_elements fuel s))
  /\ (forall s, (2 * length s + 2 <= fuel)%nat ->
        shrinks s (parse_members fuel s)).
Proof.
  induction fuel as [|f (IHv & IHe & IHm)].
  { repeat split; intros s H; lia. }
  split; [|split]; intros s Hf.
  - cbn [parse_value]. pose proof (skip_ws_length s) as Hs.
    destruct (skip_ws s) as [|c r]; [exact I|]. cbn [length] in Hs.
    destruct (c =? 34).
    { apply (shrinks_map VStr r); [|lia].
      destruct (lex_string r) as [[x r']|] eqn:E; [|exact I].
      apply lex_string_length in E. exact E. }
    destruct (c =? 91).
    { pose proof (skip_ws_length r) as Hr.
      destruct (skip_ws r) as [|c' r']; [exact I|]. cbn [length] in Hr.
      destruct (c' =? 93); [cbn; lia|].
      apply (shrinks_map VArr r); [apply IHe|]; lia. }
    destruct (c =? 123).
    { pose proof (skip_ws_length r) as Hr.
      destruct (skip_ws r) as [|c' r']; [exact I|]. cbn [length] in Hr.
      destruct (c' =? 125); [cbn; lia|].
      apply (shrinks_map _ r); [apply IHm|]; lia. }
    destruct (c =? 116).
    { apply (shrinks_of_option r); [|lia]. intros a rest H.
      destruct (strip_prefix (lit "rue") r) eqn:E; [|discriminate H].
      injection H as _ <-. now apply strip_prefix_length in E. }
    destruct (c =? 102).
    { apply (shrinks_of_option r); [|lia]. intros a rest H.
      destruct (strip_prefix (lit "alse") r) eqn:E; [|discriminate H].
      injection H as _ <-. now apply strip_prefix_length in E. }
    destruct (c =? 110).
    { apply (shrinks_of_option r); [|lia]. intros a rest H.
      destruct (strip_prefix (lit "ull") r) eqn:E; [|discriminate H].
      injection H as _ <-. now apply strip_prefix_length in E. }
    destruct ((c =? 45) || ((48 <=? c) && (c <=? 57))); [|exact I].
    apply (shrinks_map VNum (c :: r)); [|cbn [length]; lia].
    destruct (lex_number (c :: r)) as [[n r']|] eqn:E; [|exact I].
    apply lex_number_length in E. exact E.
  - cbn [parse_elements]. specialize (IHv s ltac:(lia)).
    destruct (parse_value f s) as [v r| |]; [|exact I|exact IHv].
    cbn [shrinks] in IHv. pose proof (skip_ws_length r) as Hr.
    destruct (skip_ws r) as [|c r']; [exact I|]. cbn [length] in Hr.
    destruct (c =? 44).
    { apply (shrinks_map _ r'); [apply IHe|]; lia. }
    destruct (c =? 93); [cbn; lia|exact I].
  - cbn [parse_members]. pose proof (skip_ws_length s) as Hs.
    destruct (skip_ws s) as [|c r]; [exact I|]. cbn [length] in Hs.
    destruct (c =? 34); [|exact I].
    destruct (lex_string r) as [[k r1]|] eqn:Ek; [|exact I].
    apply lex_string_length in Ek. pose proof (skip_ws_length r1) as H1.
    destruct (skip_ws r1) as [|c1 r2]; [exact I|]. cbn [length] in H1.
    destruct (c1 =? 58); [|exact I].
    specialize (IHv r2 ltac:(lia)).
    destruct (parse_value f r2) as [v r3| |]; [|exact I|exact IHv].
    cbn [shrinks] in IHv. pose proof (skip_ws_length r3) as H3.
    destruct (skip_ws r3) as [|c3 r4]; [exact I|]. cbn [length] in H3.
    destruct (c3 =? 44).
    { apply (shrinks_map _ r4); [apply IHm|]; lia. }
    destruct (c3 =? 125); [cbn; lia|exact I].
Qed.

(** [JSON.parse] decides every text: the fuel it starts with is enough. *)
Lemma parse_text_decides text :
  parse_text (2 * length text + 1) text <> OutOfFuel.
Proof.
  unfold parse_text.
  pose proof (proj1 (parse_fuel_enough (2 * length text + 1)) text
                ltac:(lia)) as H.
  destruct (parse_value (2 * length text + 1) text) as [v r| |];
    [|discriminate|contradiction].
  destruct (skip_ws r); discriminate.
Qed.

(** The only exception [JSON.parse] throws is [SyntaxError], and it throws
    it exactly on the texts the grammar rejects. *)
Lemma parse_Throw text e :
  parse text = Throw e ->
  e = SyntaxError /\ parse_text (2 * length text + 1) text = Reject.
Proof.
  unfold parse. pose proof (parse_text_decides text) as H.
  destruct (parse_text (2 * length text + 1) text) as [v r| |];
    [discriminate| |contradiction].
  intros E. injection E as <-. split; reflexivity.
Qed.

Lemma parse_nil : parse [] = Throw SyntaxError.
Proof. reflexivity. Qed.

End Fuel.

(** ** Storage *)

Section StorageFacts.

Lemma getItem_setItem ls key v ls' :
  localStorage.setItem ls key v = Ok ls' ->
  localStorage.getItem ls' key = Some v.
Proof.
  unfold localStorage.setItem, localStorage.getItem.
  destruct (_ <=? _); [|discriminate]. intros H. injection H as <-.
  cbn [localStorage.entries]. apply lookup_insert_eq.
Qed.

Lemma setItem_again ls key v ls' :
  localStorage.setItem ls key v = Ok ls' ->
  localStorage.setItem ls' key v = Ok ls'.
Proof.
  unfold localStorage.setItem.
  destruct (_ <=? _) eqn:E; [|discriminate]. intros H. injection H as <-.
  cbn [localStorage.entries localStorage.quota].
  rewrite insert_insert_eq, E. reflexivity.
Qed.

Lemma stringify_collection_head c :
  exists r, JSON.stringify (collection c) = 91 :: r.
Proof. unfold collection. cbn [JSON.stringify]. eauto. Qed.

End StorageFacts.

(** C1, as stated, fails: a stored string that is not JSON makes the
    initializer throw, and no collection is produced. *)
Lemma initialize_malformed_throws :
  localStorage.getItem corrupted (lit "todos") = Some (lit "[{oops")
  /\ initialize corrupted = Throw SyntaxError
  /\ mount corrupted = Throw SyntaxError.
Proof. repeat split; vm_compute; reflexivity. Qed.

(** C1, amended: the initial collection is empty when nothing is stored or
    when the stored string is empty; a stored string that decodes gives the
    decoded value; a non-empty stored string outside the JSON grammar makes
    the initializer throw the [SyntaxError] of [JSON.parse], which nothing
    catches. These are the only outcomes. *)
Theorem initialize_outcomes (ls : Storage) :
  match localStorage.getItem ls (lit "todos") with
  | None => initialize ls = Ok (VArr [])
  | Some [] => initialize ls = Ok (VArr [])
  | Some (c :: r) =>
      match JSON.parse_text (2 * length (c :: r) + 1) (c :: r) with
      | JSON.Parsed v _ => initialize ls = Ok v
      | JSON.Reject => initialize ls = Throw SyntaxError
      | JSON.OutOfFuel => False
      end
  end.
Proof.
  unfold initialize.
  destruct (localStorage.getItem ls (lit "todos")) as [[|c r]|];
    try reflexivity.
  unfold JSON.parse. pose proof (parse_text_decides (c :: r)) as H.
  destruct (JSON.parse_text _ _); [reflexivity|reflexivity|contradiction].
Qed.

(** C2 fails on the code: two submissions at the same clock reading give two
    items with the same id. *)
Theorem same_clock_same_id :
  run [Change (lit "Buy milk"); Submit 1000;
       Change (lit "Buy eggs"); Submit 1000]
      empty_state
  = {| todos := collection [milk; eggs]; inputValue := [] |}
  /\ ~ List.NoDup (List.map Item.id [milk; eggs]).
Proof.
  split; [vm_compute; reflexivity|].
  intros H. inversion H as [|? ? Hin _]; subst. apply Hin. now left.
Qed.

Section StoreOperations.

Implicit Types (c : list Item.t) (x : Item.t) (p : prim) (inp : jsstring).

Lemma flip_neq x : Item.flip x <> x.
Proof.
  destruct x as [i s b]. unfold Item.flip. cbn. intros H.
  injection H as H. now destruct b.
Qed.

Lemma toggled_lookup p c : forall k x,
  c !! k = Some x ->
  toggled p c !! k = Some (if Item.has_id p x then Item.flip x else x).
Proof.
  induction c as [|y c IH]; intros [|k] x H; try discriminate H.
  - injection H as <-. reflexivity.
  - apply (IH k x H).
Qed.

Lemma has_id_eq p x y :
  Item.has_id p x = true -> Item.has_id p y = true -> Item.id x = Item.id y.
Proof.
  destruct p as [| |b|[z|m e]|s]; try discriminate. cbn.
  intros Hx Hy. apply Z.eqb_eq in Hx, Hy. congruence.
Qed.

(** With unique ids, at most one item of a collection has a given id. *)
Lemma unique_id_matches_once p c :
  List.NoDup (List.map Item.id c) ->
  (length (List.filter (Item.has_id p) c) <= 1)%nat.
Proof.
  induction c as [|x c IH]; intros Hn; [cbn; lia|].
  cbn [List.map] in Hn. inversion Hn as [|? ? Hx Hc]; subst.
  cbn [List.filter]. destruct (Item.has_id p x) eqn:Ex; [|now apply IH].
  assert (Hnone : List.filter (Item.has_id p) c = []).
  { destruct (List.filter (Item.has_id p) c) as [|y l] eqn:E; [reflexivity|].
    exfalso. apply Hx.
    assert (Hy : List.In y (List.filter (Item.has_id p) c))
      by (rewrite E; now left).
    apply List.filter_In in Hy as [Hy1 Hy2].
    rewrite (has_id_eq p x y Ex Hy2). now apply List.in_map. }
  rewrite Hnone. cbn. lia.
Qed.

Lemma remaining_length p c :
  (length (remaining p c) + length (List.filter (Item.has_id p) c)
   = length c)%nat.
Proof.
  induction c as [|x c IH]; [reflexivity|].
  unfold remaining in *. cbn [List.filter].
  destruct (Item.has_id p x); cbn [negb length]; lia.
Qed.

Lemma remaining_none p c :
  List.forallb (fun x => negb (Item.has_id p x)) (remaining p c) = true.
Proof.
  apply List.forallb_forall. intros x Hx.
  now apply List.filter_In in Hx as [_ Hx].
Qed.

Lemma remaining_absent p c :
  List.forallb (fun x => negb (Item.has_id p x)) c = true ->
  remaining p c = c.
Proof.
  induction c as [|x c IH]; [reflexivity|]. cbn [List.forallb].
  intros H. apply andb_true_iff in H as [Hx Hc].
  unfold remaining in *. cbn [List.filter]. rewrite Hx. f_equal. now apply IH.
Qed.

Lemma present_matches p c :
  List.existsb (Item.has_id p) c = true ->
  (1 <= length (List.filter (Item.has_id p) c))%nat.
Proof.
  induction c as [|x c IH]; [discriminate|]. cbn [List.existsb List.filter].
  destruct (Item.has_id p x); cbn [orb length]; [lia|exact IH].
Qed.

Lemma handleAddTodo_blank now (v : value) raw :
  trim raw = [] ->
  handleAddTodo now {| todos := v; inputValue := raw |} = Ok [].
Proof. intros H. unfold handleAddTodo. cbn [inputValue]. now rewrite H. Qed.

Lemma handleAddTodo_collection now c raw :
  trim raw <> [] ->
  handleAddTodo now {| todos := collection c; inputValue := raw |}
  = Ok [setTodos (collection (c ++ [new_item (now, raw)]));
        setInputValue []].
Proof.
  intros H. unfold handleAddTodo. cbn [inputValue todos].
  destruct (trim raw) as [|a t] eqn:E; [congruence|].
  unfold collection. cbn [iterate bind]. rewrite List.map_app.
  unfold new_item. cbn [List.map fst snd]. rewrite E. reflexivity.
Qed.

(** One call of [add] on a collection of items. *)
Lemma add_collection now raw c inp :
  add now raw {| todos := collection c; inputValue := inp |}
  = {| todos := collection
                  (c ++ List.map new_item (List.filter not_blank [(now, raw)]));
       inputValue := if not_blank (now, raw) then [] else raw |}.
Proof.
  unfold add, next_state. cbn [handle fst snd].
  cbn [fold_left set_state todos inputValue List.filter].
  unfold not_blank at 1 2. cbn [snd].
  destruct (trim raw) as [|a t] eqn:E.
  - rewrite handleAddTodo_blank by assumption. cbn.
    now rewrite List.app_nil_r.
  - rewrite handleAddTodo_collection by congruence. reflexivity.
Qed.

Lemma render_collection c inp :
  render {| todos := collection c; inputValue := inp |} = Ok tt.
Proof.
  unfold render, collection. cbn [todos get_length bind].
  destruct (strict_equals _ _); [reflexivity|].
  assert (H : forall l, exists r,
             mapM (fun todo => get todo (lit "id")) (List.map Item.to_value l)
             = Ok r).
  { induction l as [|x l [r IH]]; [now eexists|].
    cbn [List.map mapM]. unfold Item.to_value at 1. cbn [get bind].
    rewrite IH. cbn [bind]. now eexists. }
  destruct (H c) as [r ->]. reflexivity.
Qed.

Lemma next_state_toggle p c inp :
  next_state (ToggleClick p) {| todos := collection c; inputValue := inp |}
  = {| todos := collection (toggled p c); inputValue := inp |}.
Proof.
  unfold next_state. cbn [handle].
  now rewrite handleToggleCompleted_collection.
Qed.

Lemma next_state_delete p c inp :
  next_state (DeleteClick p) {| todos := collection c; inputValue := inp |}
  = {| todos := collection (remaining p c); inputValue := inp |}.
Proof.
  unfold next_state. cbn [handle].
  now rewrite handleDeleteTodo_collection.
Qed.

Lemma next_state_submit now c raw :
  next_state (Submit now) {| todos := collection c; inputValue := raw |}
  = {| todos := collection
                  (c ++ List.map new_item (List.filter not_blank [(now, raw)]));
       inputValue := if not_blank (now, raw) then [] else raw |}.
Proof. apply (add_collection now raw c raw). Qed.

Lemma toggled_ids p c :
  List.map Item.id (toggled p c) = List.map Item.id c.
Proof.
  unfold toggled. rewrite List.map_map. apply List.map_ext.
  intros x. now destruct (Item.has_id p x).
Qed.

Lemma remaining_ids_NoDup p c :
  List.NoDup (List.map Item.id c) ->
  List.NoDup (List.map Item.id (remaining p c)).
Proof.
  induction c as [|x c IH]; [trivial|]. cbn [List.map].
  intros H. inversion H as [|? ? Hx Hc]; subst.
  unfold remaining in *. cbn [List.filter].
  destruct (negb (Item.has_id p x)); [|now apply IH].
  cbn [List.map]. constructor; [|now apply IH].
  intros Hin. apply Hx. apply List.in_map_iff in Hin as (y & Hy & Hin).
  apply List.filter_In in Hin as [Hin _]. rewrite <- Hy.
  now apply List.in_map.
Qed.

(** What does hold about ids: as long as the clock reading of every
    submission is above all earlier ones, the ids of the collection stay
    unique through every sequence of events. *)
Lemma unique_ids_when_clock_increases evs : forall last c inp,
  List.NoDup (List.map Item.id c) ->
  List.Forall (fun x => (Item.id x <= last)%Z) c ->
  clock_increases last evs ->
  exists c' inp',
    run evs {| todos := collection c; inputValue := inp |}
    = {| todos := collection c'; inputValue := inp' |}
    /\ List.NoDup (List.map Item.id c').
Proof.
  induction evs as [|ev evs IH]; intros last c inp Hn Hb Hc.
  { exists c, inp. split; [reflexivity|assumption]. }
  unfold run in *. cbn [fold_left].
  destruct ev as [v|now|p|p]; cbn [clock_increases] in Hc.
  - apply (IH last c v Hn Hb Hc).
  - destruct Hc as [Hlt Hc]. rewrite next_state_submit.
    apply (IH now); [| |exact Hc].
    + cbn [List.filter]. destruct (not_blank (now, inp));
        [|cbn [List.map]; now rewrite List.app_nil_r].
      cbn [List.map]. rewrite List.map_app. cbn [List.map new_item Item.id fst].
      apply List.NoDup_app; [exact Hn|repeat constructor; intros []|].
      intros z Hz [<-|[]]. rewrite List.Forall_forall in Hb.
      apply List.in_map_iff in Hz as (y & Hy & Hin). specialize (Hb y Hin). lia.
    + apply List.Forall_app. split.
      * eapply List.Forall_impl; [|exact Hb]. cbn. intros; lia.
      * cbn [List.filter]. destruct (not_blank (now, inp)); cbn [List.map];
          repeat constructor. cbn. lia.
  - rewrite next_state_toggle. apply (IH last); [| |exact Hc].
    + now rewrite toggled_ids.
    + unfold toggled. rewrite List.Forall_map.
      eapply List.Forall_impl; [|exact Hb]. intros x Hx.
      now destruct (Item.has_id p x).
  - rewrite next_state_delete. apply (IH last); [| |exact Hc].
    + now apply remaining_ids_NoDup.
    + unfold remaining. apply List.Forall_forall. intros x Hx.
      apply List.filter_In in Hx as [Hx _].
      rewrite List.Forall_forall in Hb. now apply Hb.
Qed.

End StoreOperations.

Section Claims.

Implicit Types (c : list Item.t) (x : Item.t) (p : prim) (inp : jsstring).

(** C3, as stated, fails: on the collection reached by two submissions at
    the same clock reading, one toggle flips two items. *)
Lemma toggle_flips_both :
  handleToggleCompleted (PNum (NumInt 1000))
    {| todos := collection [milk; eggs]; inputValue := [] |}
  = Ok [setTodos (collection [Item.flip milk; Item.flip eggs])]
  /\ Item.flip milk <> milk /\ Item.flip eggs <> eggs.
Proof. split; [reflexivity|]. split; apply flip_neq. Qed.

(** C3, amended: [toggleCompleted(id)] signals no error; it flips the
    [completed] field of every item whose id is [id] and leaves every other
    item as it is. So the collection is unchanged when no item has that id,
    and exactly one item is flipped when an item has that id and the ids
    are unique. *)
Theorem toggleCompleted_flips_matching p c inp :
  handleToggleCompleted p {| todos := collection c; inputValue := inp |}
  = Ok [setTodos (collection (toggled p c))]
  /\ length (toggled p c) = length c
  /\ (forall k x, c !! k = Some x ->
        toggled p c !! k
        = Some (if Item.has_id p x then Item.flip x else x))
  /\ (List.forallb (fun x => negb (Item.has_id p x)) c = true ->
        toggled p c = c)
  /\ (List.existsb (Item.has_id p) c = true ->
      List.NoDup (List.map Item.id c) ->
        length (List.filter (Item.has_id p) c) = 1%nat).
Proof.
  split; [apply handleToggleCompleted_collection|].
  split; [apply List.length_map|].
  split; [apply toggled_lookup|].
  split; [apply toggled_absent|].
  intros He Hn. pose proof (present_matches p c He).
  pose proof (unique_id_matches_once p c Hn). lia.
Qed.

Lemma toggleCompleted_flips_matching_witness :
  handleToggleCompleted (PNum (NumInt 1000))
    {| todos := collection [milk]; inputValue := [] |}
  = Ok [setTodos (collection [Item.flip milk])]
  /\ toggled (PNum (NumInt 7)) [milk] = [milk]
  /\ length (List.filter (Item.has_id (PNum (NumInt 1000))) [milk]) = 1%nat.
Proof.
  pose proof (toggleCompleted_flips_matching (PNum (NumInt 1000)) [milk] [])
    as (H1 & _ & _ & _ & H5).
  pose proof (toggleCompleted_flips_matching (PNum (NumInt 7)) [milk] [])
    as (_ & _ & _ & H4 & _).
  split; [exact H1|]. split; [apply H4; reflexivity|].
  apply H5; [reflexivity|]. repeat constructor. intros [].
Defined.

(** C4: [add] trims its input. When nothing is left it calls no setter, so
    the collection stays as it is and no error is signalled. Otherwise it
    appends exactly one item, holding the trimmed text and
    [completed = false], after all the others. Hence any sequence of [add]
    calls appends, in call order, one item per call whose trimmed text is
    not empty. *)
Theorem add_appends_trimmed c inp :
  (forall now raw, trim raw = [] ->
     handleAddTodo now {| todos := collection c; inputValue := raw |} = Ok []
     /\ add now raw {| todos := collection c; inputValue := inp |}
        = {| todos := collection c; inputValue := raw |})
  /\ (forall now raw, trim raw <> [] ->
        handleAddTodo now {| todos := collection c; inputValue := raw |}
        = Ok [setTodos (collection (c ++ [new_item (now, raw)]));
              setInputValue []]
        /\ add now raw {| todos := collection c; inputValue := inp |}
           = {| todos := collection (c ++ [new_item (now, raw)]);
                inputValue := [] |})
  /\ (forall calls,
        let added := List.map new_item (List.filter not_blank calls) in
        todos (add_all calls {| todos := collection c; inputValue := inp |})
        = collection (c ++ added)
        /\ length (c ++ added)
           = (length c + length (List.filter not_blank calls))%nat).
Proof.
  split; [|split].
  - intros now raw H. split; [now apply handleAddTodo_blank|].
    rewrite add_collection. cbn [List.filter].
    unfold not_blank. cbn [snd]. rewrite H. cbn. now rewrite List.app_nil_r.
  - intros now raw H. split; [now apply handleAddTodo_collection|].
    rewrite add_collection. cbn [List.filter].
    unfold not_blank. cbn [snd].
    destruct (trim raw); [congruence|reflexivity].
  - intros calls added. subst added. split.
    + revert c inp. induction calls as [|call calls IH]; intros c0 inp0.
      * cbn. now rewrite List.app_nil_r.
      * destruct call as [now raw]. unfold add_all in *.
        cbn [fold_left fst snd]. rewrite add_collection, IH.
        rewrite <- List.app_assoc, <- List.map_app. do 3 f_equal.
        cbn [List.filter]. now destruct (not_blank (now, raw)).
    + now rewrite List.length_app, List.length_map.
Qed.

Lemma add_appends_trimmed_witness :
  handleAddTodo 1001 {| todos := collection [milk]; inputValue := lit "   " |}
  = Ok []
  /\ add 1000 (lit "  Buy milk ") empty_state
     = {| todos := collection [milk]; inputValue := [] |}
  /\ todos (add_all [(1000%Z, lit "  Buy milk "); (1001%Z, lit "   ")]
              empty_state)
     = collection [milk].
Proof.
  pose proof (add_appends_trimmed [milk] []) as (H1 & _ & _).
  pose proof (add_appends_trimmed [] []) as (_ & H2 & H3).
  split; [apply (H1 1001%Z (lit "   ")); reflexivity|].
  split; [apply (H2 1000%Z (lit "  Buy milk ")); vm_compute; discriminate|].
  apply (H3 [(1000%Z, lit "  Buy milk "); (1001%Z, lit "   ")]).
Defined.

(** C5: what the save effect stores for a collection decodes, in a fresh
    instance of the component, to the same collection: the same ids, texts
    and flags in the same order. The fresh instance then stores the same
    text again. The empty collection is stored as the empty array. *)
Theorem save_initialize_roundtrip c (ls ls' : Storage) :
  save (collection c) ls = Ok ls' ->
  initialize ls' = Ok (collection c)
  /\ mount ls'
     = Ok {| component := {| todos := collection c; inputValue := [] |};
             storage := ls';
             uncaught := None |}
  /\ JSON.stringify (collection []) = lit "[]".
Proof.
  intros H.
  assert (Hi : initialize ls' = Ok (collection c)).
  { unfold save in H. apply getItem_setItem in H.
    unfold initialize. rewrite H.
    destruct (stringify_collection_head c) as [r Hr].
    rewrite Hr, <- Hr. apply parse_stringify_collection. }
  split; [exact Hi|]. split; [|reflexivity].
  unfold mount. rewrite Hi. cbn [bind]. rewrite render_collection.
  cbn [bind]. unfold run_effect. cbn [todos].
  unfold save in *. now rewrite (setItem_again _ _ _ _ H).
Qed.

Lemma save_initialize_roundtrip_witness :
  exists ls',
    save (collection [milk; Item.flip eggs]) roomy = Ok ls'
    /\ initialize ls' = Ok (collection [milk; Item.flip eggs]).
Proof.
  eexists. split; [vm_compute; reflexivity|].
  apply (save_initialize_roundtrip [milk; Item.flip eggs] roomy).
  vm_compute. reflexivity.
Defined.

(** C6, as stated, fails: on the collection reached by two submissions at
    the same clock reading, one removal shortens the list by two. *)
Lemma remove_deletes_both :
  handleDeleteTodo (PNum (NumInt 1000))
    {| todos := collection [milk; eggs]; inputValue := [] |}
  = Ok [setTodos (collection [])]
  /\ List.existsb (Item.has_id (PNum (NumInt 1000))) [milk; eggs] = true
  /\ length (@nil Item.t) <> (length [milk; eggs] - 1)%nat.
Proof. split; [reflexivity|]. split; [reflexivity|cbn; lia]. Qed.

(** C6, amended: [remove(id)] shortens the collection by the number of items
    whose id is [id]: by zero when there is none, by exactly one when there
    is one and the ids are unique. No item with that id remains. *)
Theorem remove_shortens_by_matches p c inp :
  handleDeleteTodo p {| todos := collection c; inputValue := inp |}
  = Ok [setTodos (collection (remaining p c))]
  /\ (length (remaining p c) + length (List.filter (Item.has_id p) c)
      = length c)%nat
  /\ List.forallb (fun x => negb (Item.has_id p x)) (remaining p c) = true
  /\ (List.forallb (fun x => negb (Item.has_id p x)) c = true ->
        remaining p c = c)
  /\ (List.existsb (Item.has_id p) c = true ->
      List.NoDup (List.map Item.id c) ->
        (length (remaining p c) + 1 = length c)%nat).
Proof.
  split; [apply handleDeleteTodo_collection|].
  split; [apply remaining_length|].
  split; [apply remaining_none|].
  split; [apply remaining_absent|].
  intros He Hn. pose proof (remaining_length p c).
  pose proof (present_matches p c He).
  pose proof (unique_id_matches_once p c Hn). lia.
Qed.

Lemma remove_shortens_by_matches_witness :
  remaining (PNum (NumInt 7)) [milk] = [milk]
  /\ (length (remaining (PNum (NumInt 1000)) [milk]) + 1
      = length [milk])%nat.
Proof.
  pose proof (remove_shortens_by_matches (PNum (NumInt 7)) [milk] [])
    as (_ & _ & _ & H4 & _).
  pose proof (remove_shortens_by_matches (PNum (NumInt 1000)) [milk] [])
    as (_ & _ & _ & _ & H5).
  split; [apply H4; reflexivity|].
  apply H5; [reflexivity|]. repeat constructor. intros [].
Defined.

(** C7: toggling the same id twice gives the collection back: every item
    has the id, text and flag it had before. This holds for every id,
    present or not. *)
Theorem toggleCompleted_twice p c inp :
  exists v,
    handleToggleCompleted p {| todos := collection c; inputValue := inp |}
    = Ok [setTodos v]
    /\ handleToggleCompleted p {| todos := v; inputValue := inp |}
       = Ok [setTodos (collection c)]
    /\ run [ToggleClick p; ToggleClick p]
         {| todos := collection c; inputValue := inp |}
       = {| todos := collection c; inputValue := inp |}.
Proof.
  exists (collection (toggled p c)).
  assert (H2 : handleToggleCompleted p
                 {| todos := collection (toggled p c); inputValue := inp |}
               = Ok [setTodos (collection c)]).
  { rewrite handleToggleCompleted_collection. now rewrite toggled_toggled. }
  split; [apply handleToggleCompleted_collection|]. split; [exact H2|].
  unfold run. cbn [fold_left]. unfold next_state. cbn [handle].
  rewrite handleToggleCompleted_collection.
  cbn [fold_left set_state inputValue].
  rewrite H2. reflexivity.
Qed.




(** C9: [remove(id)] keeps exactly the items whose id is not [id], each one
    unchanged and in the order they had; every item with that id goes, not
    only the first. *)
Theorem remove_filters_every_match p c inp :
  handleDeleteTodo p {| todos := collection c; inputValue := inp |}
  = Ok [setTodos
          (collection (List.filter (fun x => negb (Item.has_id p x)) c))]
  /\ sublist (List.filter (fun x => negb (Item.has_id p x)) c) c
  /\ (forall x,
        List.In x (List.filter (fun x => negb (Item.has_id p x)) c)
        <-> List.In x c /\ Item.has_id p x = false).
Proof.
  split; [apply handleDeleteTodo_collection|]. split.
  - induction c as [|x c IH]; [constructor|]. cbn [List.filter].
    destruct (negb (Item.has_id p x)); now constructor.
  - intros x. rewrite List.filter_In, negb_true_iff. reflexivity.
Qed.

(** C10: the initializer does not look at what it decodes. Whatever value
    the stored string decodes to, an array of items or not, is the initial
    value of [todos]. *)
Theorem initialize_no_validation (ls : Storage) s v :
  localStorage.getItem ls (lit "todos") = Some s ->
  JSON.parse s = Ok v ->
  initialize ls = Ok v.
Proof.
  intros Hs Hv. unfold initialize. rewrite Hs.
  destruct s as [|a s]; [discriminate Hv|exact Hv].
Qed.

Lemma initialize_no_validation_witness :
  initialize foreign = Ok (VObj [(lit "id", VNull)]).
Proof.
  apply (initialize_no_validation foreign (lit_q "{'id':null}"));
    vm_compute; reflexivity.
Defined.

End Claims.

(** * Further properties of the component *)

(** ** What the save effect leaves in the storage area *)

Section Persistence.

Lemma fold_set_state_todos us st :
  sets_todos us = false -> todos (fold_left set_state us st) = todos st.
Proof.
  revert st. induction us as [|u us IH]; intros st H; [reflexivity|].
  cbn [fold_left]. destruct u as [v|s]; [discriminate H|].
  rewrite IH by exact H. reflexivity.
Qed.

Lemma run_effect_in_sync st ls :
  uncaught (run_effect st ls) = None -> in_sync (run_effect st ls).
Proof.
  unfold run_effect, in_sync. destruct (save (todos st) ls) as [ls'|e] eqn:E;
    [|discriminate].
  intros _. cbn [storage component]. now apply getItem_setItem in E.
Qed.



Lemma dispatch_in_sync ev (w : world) :
  in_sync w -> uncaught (dispatch ev w) = None -> in_sync (dispatch ev w).
Proof.
  intros Hw. unfold dispatch.
  destruct (handle ev (component w)) as [[|u us]|e] eqn:Hh; [|
    |discriminate].
  - intros _. exact Hw.
  - destruct (render _) as [[]|e]; [|discriminate].
    destruct (sets_todos (u :: us)) eqn:Hs; [apply run_effect_in_sync|].
    intros _. unfold in_sync in *. cbn [storage component].
    now rewrite fold_set_state_todos.
Qed.

(** X2: once the stored copy agrees with the state, it still does after
    every event that ends without an exception, whether the event sets
    [todos] or not. *)
Theorem dispatch_keeps_in_sync ev (w : world) :
  in_sync w ->
  uncaught (dispatch ev w) = None ->
  in_sync (dispatch ev w).
Proof. apply dispatch_in_sync. Qed.

Lemma dispatch_keeps_in_sync_witness :
  in_sync (dispatch (Change (lit "Buy"))
             (run_effect empty_state roomy)).
Proof.
  apply (dispatch_keeps_in_sync (Change (lit "Buy"))
           (run_effect empty_state roomy)); vm_compute; reflexivity.
Defined.

(** X3: the component writes under the key [todos] only. Every other key of
    the storage area, and the quota, are as they were after any event; and
    typing in the input writes nothing at all. *)
Theorem dispatch_touches_only_todos ev (w : world) :
  (forall key, key <> lit "todos" ->
     localStorage.getItem (storage (dispatch ev w)) key
     = localStorage.getItem (storage w) key)
  /\ localStorage.quota (storage (dispatch ev w))
     = localStorage.quota (storage w)
  /\ (forall v, storage (dispatch (Change v) w) = storage w).
Proof.
  assert (He : forall st ls key, key <> lit "todos" ->
            localStorage.getItem (storage (run_effect st ls)) key
            = localStorage.getItem ls key).
  { intros st ls key Hk. unfold run_effect, save, localStorage.setItem.
    destruct (_ <=? _); [|reflexivity].
    unfold localStorage.getItem. cbn [storage localStorage.entries].
    apply lookup_insert_ne. congruence. }
  assert (Hq : forall st ls,
            localStorage.quota (storage (run_effect st ls))
            = localStorage.quota ls).
  { intros st ls. unfold run_effect, save, localStorage.setItem.
    destruct (_ <=? _); reflexivity. }
  split; [|split].
  - intros key Hk. unfold dispatch.
    destruct (handle ev (component w)) as [[|u us]|e]; try reflexivity.
    destruct (render _) as [[]|e]; [|reflexivity].
    destruct (sets_todos _); [now apply He|reflexivity].
  - unfold dispatch.
    destruct (handle ev (component w)) as [[|u us]|e]; try reflexivity.
    destruct (render _) as [[]|e]; [|reflexivity].
    destruct (sets_todos _); [apply Hq|reflexivity].
  - intros v. unfold dispatch. cbn [handle].
    destruct (render _) as [[]|e]; reflexivity.
Qed.

Lemma dispatch_touches_only_todos_witness :
  localStorage.getItem
    (storage (dispatch (Submit 1000)
                {| component := {| todos := VArr []; inputValue := lit "x" |};
                   storage := roomy; uncaught := None |}))
    (lit "theme")
  = None.
Proof.
  pose proof (dispatch_touches_only_todos (Submit 1000)
                {| component := {| todos := VArr []; inputValue := lit "x" |};
                   storage := roomy; uncaught := None |}) as (H & _ & _).
  rewrite (H (lit "theme")); [reflexivity|]. vm_compute. discriminate.
Defined.

End Persistence.

(** ** The states the component reaches *)

Section Reachable.

Implicit Types (c : list Item.t) (inp : jsstring).

Lemma dispatch_component ev (w : world) :
  component (dispatch ev w) = next_state ev (component w).
Proof.
  unfold dispatch, next_state, run_effect.
  destruct (handle ev (component w)) as [[|u us]|e]; try reflexivity.
  destruct (render _) as [[]|e]; [|reflexivity].
  destruct (sets_todos _); [|reflexivity].
  destruct (save _ _); reflexivity.
Qed.

Lemma next_state_collection ev c inp :
  exists c' inp',
    next_state ev {| todos := collection c; inputValue := inp |}
    = {| todos := collection c'; inputValue := inp' |}.
Proof.
  destruct ev as [v|now|p|p].
  - exists c, v. reflexivity.
  - rewrite next_state_submit. eauto.
  - rewrite next_state_toggle. eauto.
  - rewrite next_state_delete. eauto.
Qed.

Lemma handle_collection ev c inp :
  exists us, handle ev {| todos := collection c; inputValue := inp |} = Ok us.
Proof.
  destruct ev as [v|now|p|p]; cbn [handle].
  - eauto.
  - destruct (trim inp) as [|a t] eqn:E.
    + rewrite handleAddTodo_blank by exact E. eauto.
    + rewrite handleAddTodo_collection by congruence. eauto.
  - rewrite handleToggleCompleted_collection. eauto.
  - rewrite handleDeleteTodo_collection. eauto.
Qed.

(** X4: starting from a collection of items, and so from the empty
    collection, every sequence of events (any texts, clock readings and
    ids) leads to a collection of items again; there no handler throws,
    whatever the next event is, and the render returns normally. *)
Theorem reachable_states_are_sound evs : forall c inp,
  exists c' inp',
    run evs {| todos := collection c; inputValue := inp |}
    = {| todos := collection c'; inputValue := inp' |}
    /\ render (run evs {| todos := collection c; inputValue := inp |}) = Ok tt
    /\ (forall ev, exists us,
          handle ev (run evs {| todos := collection c; inputValue := inp |})
          = Ok us).
Proof.
  induction evs as [|ev evs IH]; intros c inp.
  - exists c, inp. split; [reflexivity|]. split; [apply render_collection|].
    intros ev. apply handle_collection.
  - unfold run in *. cbn [fold_left].
    destruct (next_state_collection ev c inp) as (c1 & inp1 & ->).
    apply IH.
Qed.

Lemma initialize_in_sync (w : world) c :
  in_sync w -> todos (component w) = collection c ->
  initialize (storage w) = Ok (collection c).
Proof.
  unfold in_sync, initialize. intros -> ->.
  destruct (stringify_collection_head c) as [r Hr].
  rewrite Hr, <- Hr. apply parse_stringify_collection.
Qed.

(** X5: the list is remembered. When the stored copy agrees with a
    collection of items and a sequence of events runs without an exception,
    a fresh start from the storage area it leaves begins with exactly the
    collection the component ended with. *)
Theorem reload_after_events evs : forall (w : world) c,
  todos (component w) = collection c ->
  in_sync w ->
  clean evs w ->
  initialize (storage (dispatch_all evs w))
  = Ok (todos (component (dispatch_all evs w))).
Proof.
  induction evs as [|ev evs IH]; intros w c Hc Hs Hcl.
  - cbn. rewrite Hc. now apply initialize_in_sync.
  - cbn [clean] in Hcl. destruct Hcl as [Hu Hcl].
    unfold dispatch_all in *. cbn [fold_left].
    destruct (next_state_collection ev c (inputValue (component w)))
      as (c1 & inp1 & Hn).
    apply (IH (dispatch ev w) c1).
    + rewrite dispatch_component. destruct (component w) as [v i].
      cbn [todos inputValue] in *. subst v. now rewrite Hn.
    + now apply dispatch_in_sync.
    + exact Hcl.
Qed.

Lemma reload_after_events_witness :
  initialize
    (storage (dispatch_all
                [Change (lit " Buy milk"); Submit 1000;
                 ToggleClick (PNum (NumInt 1000))]
                (run_effect empty_state roomy)))
  = Ok (collection [Item.flip milk]).
Proof.
  apply (reload_after_events
           [Change (lit " Buy milk"); Submit 1000;
            ToggleClick (PNum (NumInt 1000))]
           (run_effect empty_state roomy) []);
    vm_compute; repeat split; reflexivity.
Defined.

(** X6: the first start. With nothing stored under [todos] the component
    mounts with the empty collection and an empty input, and its first save
    effect stores the empty array, unless the storage area has no room for
    it, in which case the exception leaves the effect and nothing is
    stored. *)
Theorem mount_first_start (ls : Storage) :
  localStorage.getItem ls (lit "todos") = None ->
  exists w,
    mount ls = Ok w
    /\ component w = empty_state
    /\ match uncaught w with
       | None => localStorage.getItem (storage w) (lit "todos")
                 = Some (lit "[]")
       | Some e => e = QuotaExceededError /\ storage w = ls
       end.
Proof.
  intros H. unfold mount, initialize. rewrite H. cbn [bind].
  change (render {| todos := VArr []; inputValue := [] |})
    with (Ok (A := unit) tt).
  cbn [bind]. eexists. split; [reflexivity|].
  unfold run_effect. cbn [todos].
  destruct (save (VArr []) ls) as [ls'|e] eqn:E;
    cbn [component uncaught storage].
  - split; [reflexivity|]. now apply getItem_setItem in E.
  - split; [reflexivity|]. split; [|reflexivity].
    unfold save, localStorage.setItem in E.
    destruct (_ <=? _); [discriminate E|]. now injection E as <-.
Qed.

Lemma mount_first_start_witness :
  exists w, mount full = Ok w /\ component w = empty_state
            /\ uncaught w = Some QuotaExceededError.
Proof.
  destruct (mount_first_start full eq_refl) as (w & Hm & Hc & Hu).
  exists w. split; [exact Hm|]. split; [exact Hc|].
  vm_compute in Hm. injection Hm as <-. reflexivity.
Defined.

End Reachable.

(** ** What [handleAddTodo] stores *)

Section Added.

Implicit Types (c : list Item.t) (inp raw : jsstring).




Lemma trim_start_fixed s :
  match s with
  | [] => True
  | a :: _ => is_trimmed_unit a = false
  end -> trim_start s = s.
Proof. destruct s as [|a s]; [easy|]. cbn [trim_start]. now intros ->. Qed.

Lemma trim_trim s : trim (trim s) = trim s.
Proof.
  destruct (trim_spec s) as (pre & post & _ & _ & _ & Hh & Hl).
  unfold trim at 1. rewrite (trim_start_fixed _ Hh).
  unfold trim_end. rewrite (trim_start_fixed _ Hl).
  apply List.rev_involutive.
Qed.


(** X8: every text in the collection is non-empty and trimmed. Starting
    from a collection where this holds, and so from the empty collection,
    it holds after every sequence of events, whatever the user types. *)
Theorem stored_texts_are_trimmed evs : forall c inp,
  List.Forall (fun x => tidy (Item.text x)) c ->
  exists c' inp',
    run evs {| todos := collection c; inputValue := inp |}
    = {| todos := collection c'; inputValue := inp' |}
    /\ List.Forall (fun x => tidy (Item.text x)) c'.
Proof.
  induction evs as [|ev evs IH]; intros c inp Hc.
  { exists c, inp. split; [reflexivity|assumption]. }
  unfold run in *. cbn [fold_left]. destruct ev as [v|now|p|p].
  - apply (IH c v Hc).
  - rewrite next_state_submit. apply IH. apply List.Forall_app.
    split; [exact Hc|]. cbn [List.filter]. unfold not_blank. cbn [snd].
    destruct (trim inp) as [|a t] eqn:E; cbn [List.map]; repeat constructor.
    + unfold new_item. cbn [Item.text snd]. rewrite E. discriminate.
    + unfold new_item. cbn [Item.text snd]. apply trim_trim.
  - rewrite next_state_toggle. apply IH. unfold toggled.
    rewrite List.Forall_map. eapply List.Forall_impl; [|exact Hc].
    intros x Hx. now destruct (Item.has_id p x).
  - rewrite next_state_delete. apply IH. unfold remaining.
    apply List.Forall_forall. intros x Hx.
    apply List.filter_In in Hx as [Hx _].
    rewrite List.Forall_forall in Hc. now apply Hc.
Qed.

Lemma stored_texts_are_trimmed_witness :
  exists c' inp',
    run [Change (lit "  Buy milk "); Submit 1000; Change (lit " ")]
        empty_state
    = {| todos := collection c'; inputValue := inp' |}
    /\ List.Forall (fun x => tidy (Item.text x)) c'.
Proof.
  apply (stored_texts_are_trimmed
           [Change (lit "  Buy milk "); Submit 1000; Change (lit " ")] [] []).
  constructor.
Defined.

(** X9: ids stay unique as long as the clock moves on. When every
    submission reads a clock value above the one before it, every sequence
    of events from the empty collection leads to a collection without a
    repeated id. *)
Theorem ids_unique_while_clock_increases evs last :
  clock_increases last evs ->
  exists c inp,
    run evs empty_state = {| todos := collection c; inputValue := inp |}
    /\ List.NoDup (List.map Item.id c).
Proof.
  intros H.
  apply (unique_ids_when_clock_increases evs last [] []);
    [constructor|constructor|exact H].
Qed.

Lemma ids_unique_while_clock_increases_witness :
  exists c inp,
    run [Change (lit "Buy milk"); Submit 1000;
         Change (lit "Buy eggs"); Submit 1001] empty_state
    = {| todos := collection c; inputValue := inp |}
    /\ List.NoDup (List.map Item.id c).
Proof.
  apply (ids_unique_while_clock_increases
           [Change (lit "Buy milk"); Submit 1000;
            Change (lit "Buy eggs"); Submit 1001] 0%Z).
  cbn. lia.
Defined.

(** X10: [save] tells collections apart: two different collections of
    items are never stored as the same text. *)
Theorem stringify_collection_injective c c' :
  c <> c' ->
  JSON.stringify (collection c) <> JSON.stringify (collection c').
Proof.
  intros Hne H. apply Hne, collection_inj.
  pose proof (parse_stringify_collection c) as H1.
  pose proof (parse_stringify_collection c') as H2.
  rewrite H in H1. congruence.
Qed.

Lemma stringify_collection_injective_witness :
  JSON.stringify (collection [milk]) <> JSON.stringify (collection [eggs]).
Proof.
  apply (stringify_collection_injective [milk] [eggs]).
  intros H. discriminate H.
Defined.

End Added.

(** ** How the operations compose *)

Section Composition.

Implicit Types (c : list Item.t) (x : Item.t) (p q : prim) (inp : jsstring).

Lemma remaining_remaining p q c :
  remaining p (remaining q c) = remaining q (remaining p c).
Proof.
  unfold remaining. induction c as [|x c IH]; [reflexivity|].
  cbn [List.filter].
  destruct (Item.has_id q x) eqn:Eq, (Item.has_id p x) eqn:Ep;
    cbn [negb List.filter]; rewrite ?Eq, ?Ep; cbn [negb]; now rewrite IH.
Qed.

Lemma remaining_idempotent p c : remaining p (remaining p c) = remaining p c.
Proof. apply remaining_absent, remaining_none. Qed.

Lemma toggled_commute p q c :
  toggled p (toggled q c) = toggled q (toggled p c).
Proof.
  unfold toggled. rewrite !List.map_map. apply List.map_ext. intros x.
  destruct (Item.has_id q x) eqn:Eq, (Item.has_id p x) eqn:Ep;
    rewrite ?has_id_flip, ?Eq, ?Ep; reflexivity.
Qed.

Lemma remaining_toggled p q c :
  remaining q (toggled p c) = toggled p (remaining q c).
Proof.
  unfold remaining, toggled. induction c as [|x c IH]; [reflexivity|].
  cbn [List.map List.filter].
  assert (E : Item.has_id q (if Item.has_id p x then Item.flip x else x)
              = Item.has_id q x)
    by (destruct (Item.has_id p x); [apply has_id_flip|reflexivity]).
  rewrite E. destruct (Item.has_id q x); cbn [negb List.map]; now rewrite IH.
Qed.

Lemma toggled_remaining_same p c : toggled p (remaining p c) = remaining p c.
Proof. apply toggled_absent, remaining_none. Qed.

Lemma run_two e1 e2 (st : state) :
  run [e1; e2] st = next_state e2 (next_state e1 st).
Proof. reflexivity. Qed.

(** X11: removing is idempotent and removals commute: a second click on the
    delete button of an item changes nothing, and the order in which two
    items are removed does not matter. *)
Theorem removals_compose p q c inp :
  run [DeleteClick p; DeleteClick p]
      {| todos := collection c; inputValue := inp |}
  = run [DeleteClick p] {| todos := collection c; inputValue := inp |}
  /\ run [DeleteClick p; DeleteClick q]
         {| todos := collection c; inputValue := inp |}
     = run [DeleteClick q; DeleteClick p]
           {| todos := collection c; inputValue := inp |}.
Proof.
  rewrite !run_two. unfold run. cbn [fold_left].
  rewrite !next_state_delete, remaining_idempotent.
  split; [reflexivity|]. now rewrite remaining_remaining.
Qed.

(** X12: toggles commute with each other and with removals, for any two
    ids, equal or not; and toggling an id that was just removed changes
    nothing. *)
Theorem toggles_compose p q c inp :
  run [ToggleClick p; ToggleClick q]
      {| todos := collection c; inputValue := inp |}
  = run [ToggleClick q; ToggleClick p]
        {| todos := collection c; inputValue := inp |}
  /\ run [ToggleClick p; DeleteClick q]
         {| todos := collection c; inputValue := inp |}
     = run [DeleteClick q; ToggleClick p]
           {| todos := collection c; inputValue := inp |}
  /\ run [DeleteClick p; ToggleClick p]
         {| todos := collection c; inputValue := inp |}
     = run [DeleteClick p] {| todos := collection c; inputValue := inp |}.
Proof.
  rewrite !run_two. unfold run. cbn [fold_left].
  rewrite !next_state_toggle, !next_state_delete, !next_state_toggle.
  rewrite toggled_commute, remaining_toggled, toggled_remaining_same.
  repeat split; reflexivity.
Qed.

(** X13: adding an item and removing it again gives the collection back,
    with the input cleared, provided the clock reading of the submission is
    not already the id of an item; the typed text must not be blank. *)
Theorem add_then_remove_restores now raw c inp :
  trim raw <> [] ->
  ~ List.In now (List.map Item.id c) ->
  run [Change raw; Submit now; DeleteClick (PNum (NumInt now))]
      {| todos := collection c; inputValue := inp |}
  = {| todos := collection c; inputValue := [] |}.
Proof.
  intros Hr Hn. unfold run. cbn [fold_left].
  change (next_state (Submit now)
            (next_state (Change raw)
               {| todos := collection c; inputValue := inp |}))
    with (add now raw {| todos := collection c; inputValue := inp |}).
  rewrite add_collection. cbn [List.filter]. unfold not_blank. cbn [snd].
  destruct (trim raw) as [|a t] eqn:E; [congruence|]. cbn [List.map].
  rewrite next_state_delete. do 2 f_equal.
  unfold remaining. rewrite List.filter_app. cbn [List.filter].
  unfold new_item at 1. cbn [Item.has_id Item.id fst]. rewrite Z.eqb_refl.
  cbn [negb]. rewrite List.app_nil_r.
  apply (remaining_absent (PNum (NumInt now))).
  apply List.forallb_forall. intros x Hx. cbn [Item.has_id].
  apply negb_true_iff, Z.eqb_neq. intros Hid. apply Hn. rewrite <- Hid.
  now apply List.in_map.
Qed.

Lemma add_then_remove_restores_witness :
  run [Change (lit "Buy eggs"); Submit 1001; DeleteClick (PNum (NumInt 1001))]
      {| todos := collection [milk]; inputValue := [] |}
  = {| todos := collection [milk]; inputValue := [] |}.
Proof.
  apply (add_then_remove_restores 1001 (lit "Buy eggs") [milk] []).
  - vm_compute. discriminate.
  - cbn. lia.
Defined.

End Composition.

(** ** Values that are not collections of items *)

Section Foreign.

Implicit Types (v todo : value) (elems : list value) (p : prim)
  (inp : jsstring).

Lemma get_id_of todo :
  get todo (lit "id")
  = if is_null todo then Throw TypeError else Ok (id_of todo).
Proof. destruct todo; reflexivity. Qed.

Lemma mapM_get_id elems :
  mapM (fun todo => get todo (lit "id")) elems
  = if List.existsb is_null elems then Throw TypeError
    else Ok (List.map id_of elems).
Proof.
  induction elems as [|v elems IH]; [reflexivity|].
  cbn [mapM List.existsb List.map]. rewrite get_id_of.
  destruct (is_null v); [reflexivity|]. cbn [bind orb]. rewrite IH.
  destruct (List.existsb is_null elems); reflexivity.
Qed.

Lemma render_array elems inp :
  render {| todos := VArr elems; inputValue := inp |}
  = if List.existsb is_null elems then Throw TypeError else Ok tt.
Proof.
  unfold render. cbn [todos get_length bind strict_equals number_eqb].
  destruct elems as [|v elems]; [reflexivity|].
  replace (Z.of_nat (length (v :: elems)) =? 0)%Z with false
    by (cbn [length]; lia).
  rewrite mapM_get_id. destruct (List.existsb is_null (v :: elems));
    reflexivity.
Qed.



Lemma toggle_if_matches_null p : toggle_if_matches p VNull = Throw TypeError.
Proof. reflexivity. Qed.







(** X17: a stored text that is valid JSON but decodes to [null], a boolean,
    a number, a non-empty string or an array with a [null] element passes
    the initializer and then makes the first render throw [TypeError]: the
    component does not mount. *)
Theorem mount_fails_on_foreign_value (ls : Storage) s v :
  localStorage.getItem ls (lit "todos") = Some s ->
  JSON.parse s = Ok v ->
  match v with
  | VNull | VBool _ | VNum _ | VStr (_ :: _) => True
  | VArr elems => List.existsb is_null elems = true
  | _ => False
  end ->
  initialize ls = Ok v /\ mount ls = Throw TypeError.
Proof.
  intros Hs Hp Hv.
  assert (Hi : initialize ls = Ok v).
  { unfold initialize. rewrite Hs.
    destruct s as [|a s]; [discriminate Hp|exact Hp]. }
  split; [exact Hi|]. unfold mount. rewrite Hi. cbn [bind].
  destruct v as [|b|n|[|a t]|elems|ps]; try contradiction; try reflexivity.
  rewrite render_array, Hv. reflexivity.
Qed.

Lemma mount_fails_on_foreign_value_witness :
  initialize {| localStorage.entries := {[ lit "todos" := lit "[null]" ]};
                localStorage.quota := 100 |}
  = Ok (VArr [VNull])
  /\ mount {| localStorage.entries := {[ lit "todos" := lit "[null]" ]};
              localStorage.quota := 100 |}
     = Throw TypeError.
Proof.
  apply (mount_fails_on_foreign_value
           {| localStorage.entries := {[ lit "todos" := lit "[null]" ]};
              localStorage.quota := 100 |}
           (lit "[null]") (VArr [VNull]));
    vm_compute; reflexivity.
Defined.

(** X19: a submission with a text that is not blank throws exactly when
    [todos] is neither an array nor a string, and then no setter is called.
    On an array of arbitrary values it appends the new item after all the
    elements and leaves them as they are. *)
Theorem add_on_arbitrary_value now v raw :
  trim raw <> [] ->
  (handleAddTodo now {| todos := v; inputValue := raw |} = Throw TypeError
   <-> match v with
       | VArr _ | VStr _ => False
       | _ => True
       end)
  /\ (forall elems, v = VArr elems ->
        handleAddTodo now {| todos := v; inputValue := raw |}
        = Ok [setTodos (VArr (elems ++ [Item.to_value (new_item (now, raw))]));
              setInputValue []]).
Proof.
  intros H. unfold handleAddTodo. cbn [inputValue todos].
  destruct (trim raw) as [|a t] eqn:E; [congruence|]. split.
  - destruct v; cbn [iterate bind]; split; try easy; discriminate.
  - intros elems ->. cbn [iterate bind]. unfold new_item, Item.to_value.
    cbn [Item.id Item.text Item.completed fst snd]. now rewrite E.
Qed.

Lemma add_on_arbitrary_value_witness :
  handleAddTodo 1000 {| todos := VObj []; inputValue := lit "Buy milk" |}
  = Throw TypeError
  /\ handleAddTodo 1000
       {| todos := VArr [VNull]; inputValue := lit "Buy milk" |}
     = Ok [setTodos (VArr [VNull; Item.to_value milk]); setInputValue []].
Proof.
  assert (H : trim (lit "Buy milk") <> []) by (vm_compute; discriminate).
  pose proof (add_on_arbitrary_value 1000 (VObj []) (lit "Buy milk") H)
    as [H1 _].
  pose proof (add_on_arbitrary_value 1000 (VArr [VNull]) (lit "Buy milk") H)
    as [_ H2].
  split; [apply H1; exact I|]. apply (H2 [VNull] eq_refl).
Defined.

End Foreign.

(** ** Toggling values whose flag is not a boolean *)

Section Normalise.

Implicit Types (v todo : value) (ps : list (jsstring * value)) (p : prim)
  (k : jsstring).




























End Normalise.
